(** * Policy canonicalisation and chain lifecycle of romana-core

A shallow embedding of [pkg/util/policy/hasher/types.go] (the
canonical form of a policy used for hashing) and of the firewall
chain manager exercised by the agent's firewall tests.

Go values are modelled as follows.
- [uint] and [uint64] are 64-bit unsigned integers: a value is an [N]
  and subtraction wraps modulo [2^64].
- A [string] is a [string]; Go compares strings bytewise, which is
  [String.ltb].
- A slice is a [list] in the value-level model (a nil slice and an
  empty slice are both [[]]).  The in-place behaviour of [sort.Sort]
  on a shared backing array is the subject of [Module Mem] below,
  where slices are references into a store.
- [sort.Sort] belongs to the Go standard library.  It enters the
  development through its contract (section variables), and through
  [insertionSort], the routine the library runs on short slices. *)

From Stdlib Require Import NArith ZArith List String Ascii Lia DecimalString.
From stdpp Require Import base list sorting gmap strings.

Local Open Scope string_scope.
Local Open Scope N_scope.
Local Open Scope list_scope.

(** ** Go primitives *)

Module Go.

(** Width of [uint] on the 64-bit targets the agent is built for. *)
Definition uint_bits : N := 64.
Definition uint_mod : N := 2 ^ uint_bits.

(** [a - b] on [uint]: the result wraps around. *)
Definition uint_sub (a b : N) : N :=
  Z.to_N ((Z.of_N a - Z.of_N b) mod Z.of_N uint_mod).

(** [fmt.Sprintf("%d", n)] for an unsigned [n]. *)
Definition fmt_d (n : N) : string := NilEmpty.string_of_uint (N.to_uint n).

(** [fmt.Sprintf("%t", b)]. *)
Definition fmt_t (b : bool) : string := if b then "true" else "false".

(** Repeated [result += s] over a slice. *)
Definition concat (l : list string) : string := foldr String.app "" l.

End Go.

(** ** The contract of sort.Sort

[sort.Sort(data)] reorders [data] using only [data.Less] and
[data.Swap].  For the slice types of this package [Less(i, j)] depends
on the two elements alone, so a sort is a function of the element
comparison and the list. *)

Definition sorter : Type := forall A : Type, (A -> A -> bool) -> list A -> list A.

(** [Less] must be a strict weak ordering for [sort.Sort] to promise
    anything. *)
Record StrictWeak {A : Type} (less : A -> A -> bool) : Prop := {
  sw_asym : forall x y, less x y = true -> less y x = false;
  sw_negtrans : forall x y z, less y x = false -> less z y = false -> less z x = false
}.

(** Ascending order "as determined by the Less method": no element is
    less than one that precedes it. *)
Definition notAfter {A : Type} (less : A -> A -> bool) : relation A :=
  fun x y => less y x = false.

Definition ascending {A : Type} (less : A -> A -> bool) (l : list A) : Prop :=
  StronglySorted (notAfter less) l.

(** The three properties of [sort.Sort] used below.  The first two are
    its documented contract.  The third (a sorted slice is left as it
    is) holds of [insertionSort] and of the pattern-defeating quicksort
    that [sort.Sort] has been since Go 1.19: neither swaps when no element
    is less than its predecessor. *)
Definition sort_permutes (sort : sorter) : Prop :=
  forall (A : Type) (less : A -> A -> bool) (l : list A), sort A less l ≡ₚ l.

Definition sort_ascends (sort : sorter) : Prop :=
  forall (A : Type) (less : A -> A -> bool) (l : list A),
    StrictWeak less -> ascending less (sort A less l).

Definition sort_keeps_sorted (sort : sorter) : Prop :=
  forall (A : Type) (less : A -> A -> bool) (l : list A),
    ascending less l -> sort A less l = l.

(** ** insertionSort

<<
func insertionSort(data Interface, a, b int) {
    for i := a + 1; i < b; i++ {
        for j := i; j > a && data.Less(j, j-1); j-- {
            data.Swap(j, j-1)
        }
    }
}
>>
[sort.Sort] runs exactly this on a slice of at most 6 elements in every
Go release.  The sorted prefix [data[a..i)] is kept reversed, so that
its head is [data[j-1]]. *)

Section InsertionSort.
Context {A : Type} (less : A -> A -> bool).

(** The inner loop: [x] moves left past every element it is less than. *)
Fixpoint sink (x : A) (rprefix : list A) : list A :=
  match rprefix with
  | [] => [x]
  | y :: rest => if less x y then y :: sink x rest else x :: rprefix
  end.

(** The outer loop. *)
Fixpoint insertionLoop (rprefix : list A) (todo : list A) : list A :=
  match todo with
  | [] => reverse rprefix
  | x :: todo' => insertionLoop (sink x rprefix) todo'
  end.

Definition insertionSortBy (l : list A) : list A := insertionLoop [] l.

(** The reversed prefix is descending: nothing is less than an element
    further down the list. *)
Definition descending (rp : list A) : Prop :=
  StronglySorted (fun a b => less a b = false) rp.

End InsertionSort.

(** [sort.Sort] on a short slice. *)
Definition insertionSort : sorter := fun A less l => insertionSortBy less l.

(** ** package common: the policy data model

The declarations of [common.Policy], [common.RomanaIngress],
[common.Endpoint], [common.Rule] and [common.PortRange] are read off the
fields [types.go] uses and the verbs it formats them with. *)

Module common.

Record Endpoint : Type := {
  Peer : string;
  Cidr : string;
  Dest : string;
  TenantID : N;
  TenantName : string;
  TenantExternalID : string;
  TenantNetworkID : option N;      (* *uint64, nil is None *)
  SegmentID : N;
  SegmentName : string;
  SegmentExternalID : string;
  SegmentNetworkID : option N      (* *uint64, nil is None *)
}.

(** [type PortRange [2]uint]: index 0 is the low port, index 1 the high. *)
Definition PortRange : Type := (N * N)%type.

Record Rule : Type := {
  Protocol : string;
  Ports : list N;
  PortRanges : list PortRange;
  IcmpType : N;
  IcmpCode : N;
  IsStateful : bool
}.

Record RomanaIngress : Type := {
  Peers : list Endpoint;
  Rules : list Rule
}.

Record Policy : Type := {
  Direction : string;
  Description : string;
  Name : string;
  ID : N;
  ExternalID : string;
  AppliedTo : list Endpoint;
  Ingress : list RomanaIngress
}.

End common.

(** ** package hasher *)

Module hasher.
Import common.

(** EndpointSortGroup is an auxillary structure for the EndpointList, it
    contains original endpoint and precalculated string representation. *)
Record EndpointSortGroup : Type := {
  endpoint : Endpoint;
  key : string
}.

(** EndpointToString returns string representation of the
    common.Endpoint: [Sprintf("%s%s%s%d%s%s%d%d%s%s%d", ...)]. *)
Definition EndpointToString (e : Endpoint) : string :=
  let tid := match TenantNetworkID e with Some v => v | None => 0 end in
  let sid := match SegmentNetworkID e with Some v => v | None => 0 end in
  Go.concat [Peer e; Cidr e; Dest e;
             Go.fmt_d (TenantID e);
             TenantName e; TenantExternalID e;
             Go.fmt_d tid;
             Go.fmt_d (SegmentID e);
             SegmentName e; SegmentExternalID e;
             Go.fmt_d sid].

(** [EndpointList.Less]: compares endpoints using their string
    representations. *)
Definition EndpointList_Less (a b : EndpointSortGroup) : bool :=
  String.ltb (key a) (key b).

(** NewEndpointList converts list of common.Endpoint into EndpointList. *)
Definition NewEndpointList (endpoints : list Endpoint) : list EndpointSortGroup :=
  map (fun e => {| endpoint := e; key := EndpointToString e |}) endpoints.

(** [EndpointList.List] converts EndpointList into []common.Endpoint. *)
Definition EndpointList_List (p : list EndpointSortGroup) : list Endpoint :=
  map endpoint p.

(** [UintSlice.Less]. *)
Definition UintSlice_Less (a b : N) : bool := a <? b.

(** The quantity [p[0]-p[1]] that [PortRangeSlice.Less] compares: an
    unsigned difference. *)
Definition rangeKey (p : PortRange) : N := Go.uint_sub (fst p) (snd p).

(** [PortRangeSlice.Less]: [p[i][0]-p[i][1] < p[j][0]-p[j][1]]. *)
Definition PortRangeSlice_Less (p q : PortRange) : bool :=
  rangeKey p <? rangeKey q.

Section WithSort.
(** [sort.Sort]. *)
Variable sort : sorter.

(** [EndpointList.Sort]. *)
Definition EndpointList_Sort (p : list EndpointSortGroup) : list EndpointSortGroup :=
  sort _ EndpointList_Less p.

(** [NewEndpointList(endpoints).Sort().List()]. *)
Definition sortEndpoints (endpoints : list Endpoint) : list Endpoint :=
  EndpointList_List (EndpointList_Sort (NewEndpointList endpoints)).

(** RuleToCanonical sorts common.Rule Ports and PortRanges fields. *)
Definition RuleToCanonical (unsorted : Rule) : Rule :=
  let ports := sort _ UintSlice_Less (Ports unsorted) in
  let ranges := sort _ PortRangeSlice_Less (PortRanges unsorted) in
  {| Protocol := Protocol unsorted;
     Ports := ports;
     PortRanges := ranges;
     IcmpType := IcmpType unsorted;
     IcmpCode := IcmpCode unsorted;
     IsStateful := IsStateful unsorted |}.

(** RuleToString generates string representation of the common.Rule. *)
Definition RuleToString (rule : Rule) : string :=
  let newRule := RuleToCanonical rule in
  let result := Protocol rule in
  let result := result +:+ Go.concat (map Go.fmt_d (Ports newRule)) in
  let result := result +:+
    Go.concat (map (fun p : PortRange => Go.fmt_d (fst p) +:+ Go.fmt_d (snd p))
                   (PortRanges newRule)) in
  result +:+ Go.fmt_d (IcmpType newRule) +:+ Go.fmt_d (IcmpCode newRule)
         +:+ Go.fmt_t (IsStateful newRule).

(** [RuleSlice.Less]. *)
Definition RuleSlice_Less (a b : Rule) : bool :=
  String.ltb (RuleToString a) (RuleToString b).

(** RulesToCanonical returns canonical version of a []common.Rule.
    No function of the package calls it. *)
Definition RulesToCanonical (unsorted : list Rule) : list Rule :=
  sort _ RuleSlice_Less (map RuleToCanonical unsorted).

(** IngressToCanonical returns canonical version of
    common.RomanaIngress. *)
Definition IngressToCanonical (unsorted : RomanaIngress) : RomanaIngress :=
  {| Peers := sortEndpoints (Peers unsorted);
     Rules := map RuleToCanonical (Rules unsorted) |}.

(** PolicyToCanonical sorts romana policy Ingress and AppliedTo
    fields. *)
Definition PolicyToCanonical (unsorted : Policy) : Policy :=
  {| Direction := Direction unsorted;
     Description := Description unsorted;
     Name := Name unsorted;
     ID := ID unsorted;
     ExternalID := ExternalID unsorted;
     AppliedTo := sortEndpoints (AppliedTo unsorted);
     Ingress := map IngressToCanonical (Ingress unsorted) |}.

End WithSort.

End hasher.

(** ** Slices as references: what sort.Sort does to the caller's arrays

A Go slice is a header pointing into a backing array, and
[sorted := unsorted] in [RuleToCanonical] copies the headers of [Ports]
and [PortRanges], not the arrays.  [sort.Sort] then swaps elements of
the array both headers point to.  Here the two slices of a rule are
addresses into a store of arrays (a header spans its whole array, as
for a slice built by a literal or by decoding JSON; the nil slice is
[None]).  The slices of endpoints, rules and ingress entries stay
values: the package reads them and builds its results by [append] on
a nil slice, which allocates. *)

Module Mem.

Definition addr : Type := positive.
Definition slice : Type := option addr.

Record store : Type := {
  uints : gmap addr (list N);
  ranges : gmap addr (list common.PortRange)
}.

Record Rule : Type := {
  Protocol : string;
  Ports : slice;
  PortRanges : slice;
  IcmpType : N;
  IcmpCode : N;
  IsStateful : bool
}.

Record RomanaIngress : Type := {
  Peers : list common.Endpoint;
  Rules : list Rule
}.

Record Policy : Type := {
  Direction : string;
  Description : string;
  Name : string;
  ID : N;
  ExternalID : string;
  AppliedTo : list common.Endpoint;
  Ingress : list RomanaIngress
}.

(** Computations that update the store. *)
Definition M (A : Type) : Type := store -> A * store.

Definition ret {A : Type} (a : A) : M A := fun h => (a, h).

Definition bind {A B : Type} (c : M A) (k : A -> M B) : M B :=
  fun h => let (a, h') := c h in k a h'.

Notation "'let*' x ':=' c 'in' k" := (bind c (fun x => k))
  (at level 10, x name, k at level 200).

(** [for _, x := range xs { out = append(out, f(x)) }]. *)
Fixpoint forEach {A B : Type} (f : A -> M B) (xs : list A) : M (list B) :=
  match xs with
  | [] => ret []
  | x :: xs' =>
      let* y := f x in
      let* ys := forEach f xs' in
      ret (y :: ys)
  end.

(** The contents a slice header denotes in a store. *)
Definition readUints (h : store) (s : slice) : list N :=
  match s with
  | None => []
  | Some a => default [] (uints h !! a)
  end.

Definition readRanges (h : store) (s : slice) : list common.PortRange :=
  match s with
  | None => []
  | Some a => default [] (ranges h !! a)
  end.

Definition readRule (h : store) (r : Rule) : common.Rule :=
  {| common.Protocol := Protocol r;
     common.Ports := readUints h (Ports r);
     common.PortRanges := readRanges h (PortRanges r);
     common.IcmpType := IcmpType r;
     common.IcmpCode := IcmpCode r;
     common.IsStateful := IsStateful r |}.

Definition readIngress (h : store) (i : RomanaIngress) : common.RomanaIngress :=
  {| common.Peers := Peers i;
     common.Rules := map (readRule h) (Rules i) |}.

Definition readPolicy (h : store) (p : Policy) : common.Policy :=
  {| common.Direction := Direction p;
     common.Description := Description p;
     common.Name := Name p;
     common.ID := ID p;
     common.ExternalID := ExternalID p;
     common.AppliedTo := AppliedTo p;
     common.Ingress := map (readIngress h) (Ingress p) |}.

(** The arrays a policy's rules point to. *)
Definition sliceAddr (s : slice) : gset addr :=
  match s with
  | None => ∅
  | Some a => {[ a ]}
  end.

Definition portAddrs (rs : list Rule) : gset addr :=
  ⋃ (map (fun r => sliceAddr (Ports r)) rs).

Definition rangeAddrs (rs : list Rule) : gset addr :=
  ⋃ (map (fun r => sliceAddr (PortRanges r)) rs).

Definition policyPortAddrs (p : Policy) : gset addr :=
  ⋃ (map (fun i => portAddrs (Rules i)) (Ingress p)).

Definition policyRangeAddrs (p : Policy) : gset addr :=
  ⋃ (map (fun i => rangeAddrs (Rules i)) (Ingress p)).

Section WithSort.
Variable sort : sorter.

(** The store [h] with the uint arrays at the addresses in [Sp] and the
    range arrays at the addresses in [Sr] sorted, and every other
    array untouched. *)
Definition sortedAt (Sp Sr : gset addr) (h : store) : store :=
  {| uints :=
       map_imap (fun a l => Some (if decide (a ∈ Sp)
                                  then sort _ hasher.UintSlice_Less l else l))
                (uints h);
     ranges :=
       map_imap (fun a l => Some (if decide (a ∈ Sr)
                                  then sort _ hasher.PortRangeSlice_Less l else l))
                (ranges h) |}.

(** [sort.Sort(UintSlice(s))]: the array behind [s] is reordered in
    place. *)
Definition sortUints (s : slice) : M unit := fun h =>
  match s with
  | None => (tt, h)
  | Some a =>
      (tt, {| uints := alter (sort _ hasher.UintSlice_Less) a (uints h);
              ranges := ranges h |})
  end.

(** [sort.Sort(PortRangeSlice(s))]. *)
Definition sortRanges (s : slice) : M unit := fun h =>
  match s with
  | None => (tt, h)
  | Some a =>
      (tt, {| uints := uints h;
              ranges := alter (sort _ hasher.PortRangeSlice_Less) a (ranges h) |})
  end.

(** An ingress entry with its peers sorted and its rules holding the
    slice headers they came with. *)
Definition ingressResult (i : RomanaIngress) : RomanaIngress :=
  {| Peers := hasher.sortEndpoints sort (Peers i);
     Rules := Rules i |}.

Definition RuleToCanonical (unsorted : Rule) : M Rule :=
  (* copy args *)
  let sorted := unsorted in
  let* _ := sortUints (Ports sorted) in
  let* _ := sortRanges (PortRanges sorted) in
  ret sorted.

Definition IngressToCanonical (unsorted : RomanaIngress) : M RomanaIngress :=
  let peers := hasher.sortEndpoints sort (Peers unsorted) in
  let* rules := forEach RuleToCanonical (Rules unsorted) in
  ret {| Peers := peers; Rules := rules |}.

Definition PolicyToCanonical (unsorted : Policy) : M Policy :=
  let appliedTo := hasher.sortEndpoints sort (AppliedTo unsorted) in
  let* ingress := forEach IngressToCanonical (Ingress unsorted) in
  ret {| Direction := Direction unsorted;
         Description := Description unsorted;
         Name := Name unsorted;
         ID := ID unsorted;
         ExternalID := ExternalID unsorted;
         AppliedTo := appliedTo;
         Ingress := ingress |}.

End WithSort.

End Mem.

(** ** package firewall: the chain lifecycle manager

[firewall.go] is not among the sources; its tests are.  The manager
below follows the specification, and the command lines follow what
the tests expect to find in [FakeExecutor.Commands]. *)

Module firewall.

(** Modelled from the spec: the constant [iptablesCmd] of the absent
    firewall.go, with which the tests format their expectations; the
    agent's test spells it out. *)
Definition iptablesCmd : string := "/sbin/iptables".
Definition iptablesSaveCmd : string := "/sbin/iptables-save".

(** Modelled from the spec: the invocations of the packet-filter tool that
    the absent firewall.go builds, in the shapes of the command lines the
    tests expect. *)
Inductive Cmd : Type :=
| ListChain (chain : string)                (* -w -L chain *)
| NewChain (chain : string)                 (* -N chain *)
| CheckRule (rule : string)                 (* -w -C rule *)
| AppendRule (wait : bool) (rule : string)  (* [-w] -A rule *)
| DeleteRule (rule : string)                (* -D rule *)
| SaveRules.                                (* iptables-save *)

(** A query reads host state; every other command changes it. *)
Definition isQuery (c : Cmd) : bool :=
  match c with
  | ListChain _ | CheckRule _ | SaveRules => true
  | NewChain _ | AppendRule _ _ | DeleteRule _ => false
  end.

Definition isMutating (c : Cmd) : bool := negb (isQuery c).

(** The command line as the executor records it. *)
Definition render (c : Cmd) : string :=
  match c with
  | ListChain chain => iptablesCmd +:+ " -w -L " +:+ chain
  | NewChain chain => iptablesCmd +:+ " -N " +:+ chain
  | CheckRule rule => iptablesCmd +:+ " -w -C " +:+ rule
  | AppendRule true rule => iptablesCmd +:+ " -w -A " +:+ rule
  | AppendRule false rule => iptablesCmd +:+ " -A " +:+ rule
  | DeleteRule rule => iptablesCmd +:+ " -D " +:+ rule
  | SaveRules => iptablesSaveCmd
  end.

(** Modelled from the spec: the error taxonomy of the core, as far as the
    manager raises it. *)
Inductive Error : Type :=
| ValidationError (msg : string)
| ExecutionError (msg : string).

(** Modelled from the spec: [Executor.Exec(argv) (stdout, err)], the
    process-execution collaborator, whose package is absent.  [E] is
    whatever state the collaborator keeps (for a real one, the host). *)
Class Executor (E : Type) : Type :=
  Exec : Cmd -> E -> (list string * option string) * E.

(** Modelled from the spec: [utilexec.FakeExecutor], absent as well, as the
    tests use it: it answers every call with the same output and error,
    and records the command line.  [Error_] is its field [Error]. *)
Record FakeExecutor : Type := {
  Output : list string;
  Error_ : option string;
  Commands : list string
}.

#[global] Instance FakeExecutor_Exec : Executor FakeExecutor :=
  fun c e =>
    ((Output e, Error_ e),
     {| Output := Output e; Error_ := Error_ e;
        Commands := Commands e ++ [render c] |}).

(** Modelled from the spec: the chains and the firewall of the absent
    firewall.go, with the fields the manager needs. *)
Record IPtablesChain : Type := {
  BaseChain : string;
  ChainName : string;
  (** Bodies of the compiled rules of the chain. *)
  ChainRules : list string
}.

Record IPtables : Type := {
  chains : list IPtablesChain;
  interface : string;
  defaultTarget : string;
  u32filter : string
}.

(** [strings.Contains(line, substring)]. *)
Definition contains (substring line : string) : bool :=
  match String.index 0 substring line with
  | Some _ => true
  | None => false
  end.

Section Manager.
Context {E : Type} {executor : Executor E}.

(** A step of the manager: a result, the commands it had executed, in
    order, and the collaborator's state afterwards. *)
Definition F (A : Type) : Type := E -> A * list Cmd * E.

Definition ret {A : Type} (a : A) : F A := fun e => (a, [], e).

Definition bind {A B : Type} (c : F A) (k : A -> F B) : F B :=
  fun e =>
    let '(a, log1, e1) := c e in
    let '(b, log2, e2) := k a e1 in
    (b, log1 ++ log2, e2).

Notation "'let*' x ':=' c 'in' k" := (bind c (fun x => k))
  (at level 10, x name, k at level 200).

Definition exec (c : Cmd) : F (list string * option string) :=
  fun e => let (r, e') := Exec c e in (r, [c], e').

(** Runs [f] on every element and gathers the failures; one failure
    never stops the pass. *)
Fixpoint forEach {A : Type} (f : A -> F (list Error)) (xs : list A) : F (list Error) :=
  match xs with
  | [] => ret []
  | x :: xs' =>
      let* errs := f x in
      let* errs' := forEach f xs' in
      ret (errs ++ errs')
  end.

Definition failure (r : list string * option string) : list Error :=
  match snd r with
  | Some msg => [ExecutionError msg]
  | None => []
  end.

(** Modelled from the spec: [isChainExist] of the absent firewall.go.
    The chain is listed; it exists when the listing does not fail. *)
Definition isChainExist (chain : string) : F bool :=
  let* r := exec (ListChain chain) in
  ret (bool_decide (snd r = None)).

(** Modelled from the spec: [isRuleExist] of the absent firewall.go.
    The rule is checked with -C; it exists when the check does not
    fail. *)
Definition isRuleExist (rule : string) : F bool :=
  let* r := exec (CheckRule rule) in
  ret (bool_decide (snd r = None)).

(** Modelled from the spec: [CreateChains] of the absent firewall.go.
    "Query current state first; only mutate if the query reports the
    desired state is not already present"; a query error counts as
    not present. *)
Definition ensureChain (chain : string) : F (list Error) :=
  let* present := isChainExist chain in
  if present then ret []
  else let* r := exec (NewChain chain) in ret (failure r).

Definition CreateChains (newChains : list IPtablesChain) : F (list Error) :=
  forEach (fun c => ensureChain (ChainName c)) newChains.

(** Modelled from the spec: [EnsureRule] of the absent firewall.go,
    the ensure operation on one rule. *)
Definition EnsureRule (rule : string) : F (list Error) :=
  let* present := isRuleExist rule in
  if present then ret []
  else let* r := exec (AppendRule false rule) in ret (failure r).

Definition divertRule (fw : IPtables) (chain : IPtablesChain) : string :=
  BaseChain chain +:+ " -i " +:+ interface fw +:+ " -j " +:+ ChainName chain.

(** Modelled from the spec: [DivertTrafficToRomanaIPtablesChain] of
    the absent firewall.go: ensures the jump from the base chain into
    the Romana chain. *)
Definition DivertTrafficToRomanaIPtablesChain (fw : IPtables) (chain : IPtablesChain)
  : F (list Error) :=
  EnsureRule (divertRule fw chain).

(** Modelled from the spec: [CreateDefaultRule] of the absent
    firewall.go. *)
Definition CreateDefaultRule (chain : IPtablesChain) (target : string) : F (list Error) :=
  EnsureRule (ChainName chain +:+ " -j " +:+ target).

(** Modelled from the spec: [CreateRules] of the absent firewall.go:
    ensures every compiled rule of the chain. *)
Definition CreateRules (chain : IPtablesChain) : F (list Error) :=
  forEach EnsureRule (ChainRules chain).

Definition u32Rule (fw : IPtables) (chain : IPtablesChain) : string :=
  ChainName chain +:+ " -m u32 --u32 " +:+ u32filter fw +:+ " -j ACCEPT".

(** Modelled from the spec: [CreateU32Rules] of the absent
    firewall.go.  The bit-match rule is appended; [TestCreateU32Rules]
    expects the -A command from an executor that never fails, so no
    check precedes it. *)
Definition CreateU32Rules (fw : IPtables) (chain : IPtablesChain) : F (list Error) :=
  let* r := exec (AppendRule true (u32Rule fw chain)) in
  ret (failure r).

(** Modelled from the spec: the ensure steps of one chain, in the
    order of the state machine Absent, Created, Diverted,
    DefaultInstalled, Populated. *)
Definition ensureSteps (fw : IPtables) (chain : IPtablesChain) : F (list Error) :=
  let* e1 := ensureChain (ChainName chain) in
  let* e2 := DivertTrafficToRomanaIPtablesChain fw chain in
  let* e3 := CreateDefaultRule chain (defaultTarget fw) in
  let* e4 := CreateRules chain in
  ret (e1 ++ e2 ++ e3 ++ e4).

(** Modelled from the spec: the whole lifecycle of one chain, up to
    Ready. *)
Definition provisionChain (fw : IPtables) (chain : IPtablesChain) : F (list Error) :=
  let* e1 := ensureSteps fw chain in
  let* e2 := CreateU32Rules fw chain in
  ret (e1 ++ e2).

(** Modelled from the spec: a reconciliation pass, [Reconcile]. *)
Definition Reconcile (fw : IPtables) : F (list Error) :=
  forEach (provisionChain fw) (chains fw).

(** Modelled from the spec: [deleteIPtablesRulesBySubstring] of the
    absent firewall.go.  "Removal uses substring-match bulk deletion
    against the rendered rule text; passing an empty substring is
    rejected outright." *)
Definition deleteIPtablesRulesBySubstring (substring : string) : F (list Error) :=
  if bool_decide (substring = "") then
    ret [ValidationError "empty substring"]
  else
    let* r := exec SaveRules in
    match snd r with
    | Some msg => ret [ExecutionError msg]
    | None =>
        forEach (fun line => let* d := exec (DeleteRule line) in ret (failure d))
                (filter (fun line => contains substring line = true) (fst r))
    end.

(** What a step returned, what it executed, and where it left the
    collaborator. *)
Definition result {A : Type} (c : F A) (e : E) : A := fst (fst (c e)).
Definition executed {A : Type} (c : F A) (e : E) : list Cmd := snd (fst (c e)).
Definition after {A : Type} (c : F A) (e : E) : E := snd (c e).

(** The command fails when executed in state [e]. *)
Definition fails (c : Cmd) (e : E) : Prop := is_Some (snd (fst (Exec c e))).

(** The host reports the desired end-state: in every state the
    collaborator is going to be in ([I] holds now and after any
    command), no query fails. *)
Definition reportsPresent (I : E -> Prop) : Prop :=
  forall (c : Cmd) (e : E), I e ->
    I (snd (Exec c e)) /\ (isQuery c = true -> snd (fst (Exec c e)) = None).

(** [c] started in [e] returns [a], having executed [log], and leaves
    the collaborator in [e']. *)
Definition runs {A : Type} (c : F A) (e : E) (a : A) (log : list Cmd) (e' : E) : Prop :=
  c e = (a, log, e').

End Manager.

Arguments F : clear implicits.

(** The queries of the ensure steps of one chain: the chain is listed,
    then the diversion jump, the default rule and the compiled rules are
    checked. *)
Definition ensureQueries (fw : IPtables) (chain : IPtablesChain) : list Cmd :=
  [ListChain (ChainName chain);
   CheckRule (divertRule fw chain);
   CheckRule (ChainName chain +:+ " -j " +:+ defaultTarget fw)]
  ++ map CheckRule (ChainRules chain).

End firewall.

(** ** Relations between policies in which the properties are stated *)

Module relate.
Import common.

(** [r'] has the fields of [r], its ports and port ranges in any
    order. *)
Definition ruleContent (r r' : Rule) : Prop :=
  Protocol r' = Protocol r /\
  Ports r' ≡ₚ Ports r /\
  PortRanges r' ≡ₚ PortRanges r /\
  IcmpType r' = IcmpType r /\
  IcmpCode r' = IcmpCode r /\
  IsStateful r' = IsStateful r.

(** Same peers in any order; rule by rule, same content. *)
Definition ingressContent (i i' : RomanaIngress) : Prop :=
  Peers i' ≡ₚ Peers i /\
  Forall2 ruleContent (Rules i) (Rules i').

(** Same identity; same targets in any order; entry by entry, same
    content. *)
Definition policyContent (p p' : Policy) : Prop :=
  Direction p' = Direction p /\
  Description p' = Description p /\
  Name p' = Name p /\
  ID p' = ID p /\
  ExternalID p' = ExternalID p /\
  AppliedTo p' ≡ₚ AppliedTo p /\
  Forall2 ingressContent (Ingress p) (Ingress p').

(** As [ingressContent], and the rules themselves may change places. *)
Definition ingressReordered (i i' : RomanaIngress) : Prop :=
  Peers i' ≡ₚ Peers i /\
  exists rs, rs ≡ₚ Rules i /\ Forall2 ruleContent rs (Rules i').

(** [p'] is [p] with its AppliedTo, Peers, Rules, Ports and PortRanges
    permuted. *)
Definition policyReordered (p p' : Policy) : Prop :=
  Direction p' = Direction p /\
  Description p' = Description p /\
  Name p' = Name p /\
  ID p' = ID p /\
  ExternalID p' = ExternalID p /\
  AppliedTo p' ≡ₚ AppliedTo p /\
  Forall2 ingressReordered (Ingress p) (Ingress p').

(** No two different endpoints of the list share a key. *)
Definition keysIdentify (l : list Endpoint) : Prop :=
  forall e1 e2, e1 ∈ l -> e2 ∈ l ->
    hasher.EndpointToString e1 = hasher.EndpointToString e2 -> e1 = e2.

(** No two different ranges of the list share [low - high]. *)
Definition differencesIdentify (l : list PortRange) : Prop :=
  forall r1 r2, r1 ∈ l -> r2 ∈ l -> hasher.rangeKey r1 = hasher.rangeKey r2 -> r1 = r2.

Definition tieFree (p : Policy) : Prop :=
  keysIdentify (AppliedTo p) /\
  Forall (fun i => keysIdentify (Peers i) /\
                   Forall (fun r => differencesIdentify (PortRanges r)) (Rules i))
         (Ingress p).

(** An absent network ID reads as zero. *)
Definition networkID (id : option N) : N :=
  match id with Some v => v | None => 0 end.

(** Field by field equality of two endpoints. *)
Definition sameFields (e1 e2 : Endpoint) : Prop :=
  Peer e1 = Peer e2 /\ Cidr e1 = Cidr e2 /\ Dest e1 = Dest e2 /\
  TenantID e1 = TenantID e2 /\ TenantName e1 = TenantName e2 /\
  TenantExternalID e1 = TenantExternalID e2 /\
  networkID (TenantNetworkID e1) = networkID (TenantNetworkID e2) /\
  SegmentID e1 = SegmentID e2 /\ SegmentName e1 = SegmentName e2 /\
  SegmentExternalID e1 = SegmentExternalID e2 /\
  networkID (SegmentNetworkID e1) = networkID (SegmentNetworkID e2).

(** The difference [low - high] of a range over the integers, and the
    width of the range. *)
Definition signedDifference (p : PortRange) : Z := (Z.of_N (fst p) - Z.of_N (snd p))%Z.
Definition width (p : PortRange) : N := snd p - fst p.

(** [low <= high], both of them values of [uint]. *)
Definition wellFormedRange (p : PortRange) : Prop :=
  fst p <= snd p /\ snd p < Go.uint_mod.

End relate.

(** ** Sample policies *)

Module sample.
Import common.

Definition endpoint0 : Endpoint :=
  {| Peer := ""; Cidr := ""; Dest := ""; TenantID := 0; TenantName := "";
     TenantExternalID := ""; TenantNetworkID := None; SegmentID := 0;
     SegmentName := ""; SegmentExternalID := ""; SegmentNetworkID := None |}.

Definition withCidr (c : string) : Endpoint :=
  {| Peer := ""; Cidr := c; Dest := ""; TenantID := 0; TenantName := "";
     TenantExternalID := ""; TenantNetworkID := None; SegmentID := 0;
     SegmentName := ""; SegmentExternalID := ""; SegmentNetworkID := None |}.

Definition withPeer (c : string) : Endpoint :=
  {| Peer := c; Cidr := ""; Dest := ""; TenantID := 0; TenantName := "";
     TenantExternalID := ""; TenantNetworkID := None; SegmentID := 0;
     SegmentName := ""; SegmentExternalID := ""; SegmentNetworkID := None |}.

Definition withTenant (name : string) (id : N) : Endpoint :=
  {| Peer := ""; Cidr := ""; Dest := ""; TenantID := 0; TenantName := name;
     TenantExternalID := ""; TenantNetworkID := Some id; SegmentID := 0;
     SegmentName := ""; SegmentExternalID := ""; SegmentNetworkID := None |}.

(** [endpoint0] with its two network IDs present and zero. *)
Definition endpointZero : Endpoint :=
  {| Peer := ""; Cidr := ""; Dest := ""; TenantID := 0; TenantName := "";
     TenantExternalID := ""; TenantNetworkID := Some 0; SegmentID := 0;
     SegmentName := ""; SegmentExternalID := ""; SegmentNetworkID := Some 0 |}.

(** [Rule{Protocol:"TCP", Ports:[99,80,8080]}]. *)
Definition tcpRule : Rule :=
  {| Protocol := "TCP"; Ports := [99; 80; 8080]; PortRanges := [];
     IcmpType := 0; IcmpCode := 0; IsStateful := false |}.

Definition rangeRule (rs : list PortRange) : Rule :=
  {| Protocol := "UDP"; Ports := []; PortRanges := rs;
     IcmpType := 0; IcmpCode := 0; IsStateful := true |}.

Definition policyOf (targets peers : list Endpoint) (rules : list Rule) : Policy :=
  {| Direction := "ingress"; Description := "sample"; Name := "pol1"; ID := 7;
     ExternalID := "ext-7"; AppliedTo := targets;
     Ingress := [ {| Peers := peers; Rules := rules |} ] |}.

Definition policy1 : Policy :=
  policyOf [withTenant "t1" 3; withCidr "10.0.0.0/8"]
           [withCidr "192.168.0.0/16"; withCidr "10.1.0.0/16"]
           [tcpRule; rangeRule [(1000, 2000); (53, 53)]].

(** [policy1] with every collection in another order, the rules apart. *)
Definition policy1' : Policy :=
  policyOf [withCidr "10.0.0.0/8"; withTenant "t1" 3]
           [withCidr "10.1.0.0/16"; withCidr "192.168.0.0/16"]
           [ {| Protocol := "TCP"; Ports := [8080; 99; 80]; PortRanges := [];
                IcmpType := 0; IcmpCode := 0; IsStateful := false |};
             rangeRule [(53, 53); (1000, 2000)] ].

(** Two policies that differ in the order of two port ranges of the
    same width. *)
Definition rangesAB : Policy := policyOf [] [] [rangeRule [(1, 2); (3, 4)]].
Definition rangesBA : Policy := policyOf [] [] [rangeRule [(3, 4); (1, 2)]].

(** Two policies that differ in the order of their rules. *)
Definition rulesAB : Policy := policyOf [] [] [tcpRule; rangeRule []].
Definition rulesBA : Policy := policyOf [] [] [rangeRule []; tcpRule].

(** Two policies that differ in the order of two peers with one key. *)
Definition peersAB : Policy := policyOf [] [withPeer "a"; withCidr "a"] [].
Definition peersBA : Policy := policyOf [] [withCidr "a"; withPeer "a"] [].

(** The firewall of the tests: interface eth0 and the four Romana chains
    that TestCreateChains lists.  The tests show the base chain and a rule
    of the first chain only. *)
Definition inputChain : firewall.IPtablesChain :=
  {| firewall.BaseChain := "INPUT"; firewall.ChainName := "ROMANA-INPUT";
     firewall.ChainRules :=
       ["ROMANA-INPUT -d 255.255.255.255/32 -p udp -m udp --sport 68 --dport 67 -j ACCEPT"] |}.

Definition testFirewall : firewall.IPtables :=
  {| firewall.chains :=
       [ inputChain;
         {| firewall.BaseChain := "OUTPUT"; firewall.ChainName := "ROMANA-FORWARD-IN";
            firewall.ChainRules := [] |};
         {| firewall.BaseChain := "FORWARD"; firewall.ChainName := "ROMANA-FORWARD-OUT";
            firewall.ChainRules := [] |};
         {| firewall.BaseChain := "FORWARD"; firewall.ChainName := "ROMANA-FORWARD-IN";
            firewall.ChainRules := [] |} ];
     firewall.interface := "eth0";
     firewall.defaultTarget := "DROP";
     firewall.u32filter := "12&0xFF00FF00=0x7F000000&&16&0xFF00FF00=0x7F000000" |}.

(** [&utilexec.FakeExecutor{}]. *)
Definition quietExecutor : firewall.FakeExecutor :=
  {| firewall.Output := []; firewall.Error_ := None; firewall.Commands := [] |}.

(** [&utilexec.FakeExecutor{Error: errors.New("Rule not found")}]. *)
Definition failingExecutor : firewall.FakeExecutor :=
  {| firewall.Output := []; firewall.Error_ := Some "Rule not found";
     firewall.Commands := [] |}.

(** An executor whose iptables-save lists three rules. *)
Definition listingExecutor : firewall.FakeExecutor :=
  {| firewall.Output :=
       ["ROMANA-INPUT -m comment --comment pol1 -j ACCEPT";
        "ROMANA-INPUT -m comment --comment pol2 -j ACCEPT";
        "ROMANA-FORWARD-IN -m comment --comment pol1 -j DROP"];
     firewall.Error_ := None; firewall.Commands := [] |}.

(** A store with one array, [[99, 80, 8080]], and a policy whose only
    rule has that array as its Ports. *)
Definition store1 : Mem.store :=
  {| Mem.uints := {[ 1%positive := [99; 80; 8080] ]}; Mem.ranges := ∅ |}.

Definition storedRule : Mem.Rule :=
  {| Mem.Protocol := "TCP"; Mem.Ports := Some 1%positive; Mem.PortRanges := None;
     Mem.IcmpType := 0; Mem.IcmpCode := 0; Mem.IsStateful := false |}.

Definition storedPolicy : Mem.Policy :=
  {| Mem.Direction := "ingress"; Mem.Description := "sample"; Mem.Name := "pol1";
     Mem.ID := 7; Mem.ExternalID := "ext-7"; Mem.AppliedTo := [];
     Mem.Ingress := [ {| Mem.Peers := []; Mem.Rules := [storedRule] |} ] |}.

End sample.

(** ** The shape of a canonical form *)

Module shape.
Import common.

(** Keys never decrease along the list. *)
Definition keysAscending (l : list Endpoint) : Prop :=
  StronglySorted
    (fun a b => String.le (hasher.EndpointToString a) (hasher.EndpointToString b)) l.

(** [p] may precede [q] in a canonical rule: [p] is a single port, or [q]
    is a proper range that is not wider than [p]. *)
Definition widerFirst (p q : PortRange) : Prop :=
  relate.width p = 0 \/ (0 < relate.width q /\ relate.width q <= relate.width p).

(** The endpoint collections of a policy are in key order. *)
Definition endpointsAscending (p : Policy) : Prop :=
  keysAscending (AppliedTo p) /\
  Forall (fun i => keysAscending (Peers i)) (Ingress p).

(** Canonical strings never decrease along the list. *)
Definition stringsAscending (sort : sorter) (l : list Rule) : Prop :=
  StronglySorted
    (fun a b => String.le (hasher.RuleToString sort a) (hasher.RuleToString sort b)) l.

(** Rules of the list with one canonical string have one canonical
    form. *)
Definition stringsIdentify (sort : sorter) (l : list Rule) : Prop :=
  forall a b, a ∈ l -> b ∈ l ->
    hasher.RuleToString sort a = hasher.RuleToString sort b ->
    hasher.RuleToCanonical sort a = hasher.RuleToCanonical sort b.

(** A rule with no ports whose protocol ends in the digits of [port],
    and the rule with the protocol [proto] and the one port [port]. *)
Definition portInProtocol (proto : string) (port : N) (r : Rule) : Rule :=
  {| Protocol := proto +:+ Go.fmt_d port; Ports := [];
     PortRanges := PortRanges r; IcmpType := IcmpType r;
     IcmpCode := IcmpCode r; IsStateful := IsStateful r |}.

Definition portInPorts (proto : string) (port : N) (r : Rule) : Rule :=
  {| Protocol := proto; Ports := [port];
     PortRanges := PortRanges r; IcmpType := IcmpType r;
     IcmpCode := IcmpCode r; IsStateful := IsStateful r |}.

(** The policy with every rule in canonical form and every list of
    endpoints as it is. *)
Definition canonicalRules (sort : sorter) (p : Policy) : Policy :=
  {| Direction := Direction p; Description := Description p; Name := Name p;
     ID := ID p; ExternalID := ExternalID p; AppliedTo := AppliedTo p;
     Ingress := map (fun i => {| Peers := Peers i;
                                 Rules := map (hasher.RuleToCanonical sort) (Rules i) |})
                    (Ingress p) |}.

End shape.

(** ** package ipam *)

Module ipam.

(** [1<<stride] in [uint64]: a shift by 64 or more gives zero. *)
Definition uint64_shl1 (stride : N) : N := N.shiftl 1 stride mod Go.uint_mod.

(** getEffectiveNetworkID gets effective number of an Endpoint on a given
    host: [3 + (1<<stride)*EndpointNetworkID], in [uint64]. *)
Definition getEffectiveNetworkID (EndpointNetworkID : N) (stride : N) : N :=
  (3 + (uint64_shl1 stride * EndpointNetworkID) mod Go.uint_mod) mod Go.uint_mod.

End ipam.

(** ** package kubernetes: the listener *)

Module kubernetes.

Definition KubeEventAdded : string := "ADDED".
Definition KubeEventDeleted : string := "DELETED".
Definition KubeEventModified : string := "MODIFIED".
Definition InternalEventDeleteAll : string := "_DELETE_ALL".

(** Metadata is a representation of metadata in kubernetes object. *)
Record Metadata : Type := {
  Name : string;
  Namespace : string;
  SelfLink : string;
  Uid : string;
  ResourceVersion : string;
  CreationTimestamp : string;
  Labels : gmap string string;
  Annotations : gmap string string
}.

Record PodSelector : Type := { MatchLabels : gmap string string }.
Record FromEntry : Type := { Pods : PodSelector }.
Record ToPort : Type := { Port : N; Protocol : string }.
Record Ingress : Type := { From : list FromEntry; ToPorts : list ToPort }.
Record Spec : Type := { SpecIngress : list Ingress; SpecPodSelector : PodSelector }.

(** KubeObject is a representation of object in kubernetes. *)
Record KubeObject : Type := {
  Kind : string;
  ObjSpec : Spec;
  ApiVersion : string;
  ObjMetadata : Metadata;
  Status : gmap string string
}.

(** makeId makes id to identify kube object. *)
Definition makeId (o : KubeObject) : string :=
  (Name (ObjMetadata o) +:+ "/") +:+ Namespace (ObjMetadata o).

(** The text has no slash. *)
Fixpoint noSlash (s : string) : bool :=
  match s with
  | EmptyString => true
  | String c s' => negb (Ascii.eqb c "/") && noSlash s'
  end.

(** The fields of [v1.Namespace] the listener reads: [ObjectMeta.UID] and
    [ObjectMeta.Name]. *)
Record NamespaceObj : Type := { UID : string; NsName : string }.

(** What [Event.Object], an [interface{}], can hold: a network policy,
    a namespace, or anything else ([nil] included). *)
Inductive Object (NetworkPolicy : Type) : Type :=
| ObjNetworkPolicy (np : NetworkPolicy)
| ObjNamespace (ns : NamespaceObj)
| ObjOther.
Arguments ObjNetworkPolicy {NetworkPolicy} np.
Arguments ObjNamespace {NetworkPolicy} ns.
Arguments ObjOther {NetworkPolicy}.

(** Event is a representation of a structure that we receive from
    kubernetes API.  [EvType] is its field [Type]. *)
Record Event (NetworkPolicy : Type) : Type := {
  EvType : string;
  EvObject : Object NetworkPolicy
}.
Arguments EvType {NetworkPolicy} e.
Arguments EvObject {NetworkPolicy} e.

Section Policies.
(** [v1beta1.NetworkPolicy] of the kubernetes client, with the two fields
    of its [ObjectMeta] that the listener reads. *)
Context {NetworkPolicy : Type}.
Variable metaNamespace : NetworkPolicy -> string.
Variable metaName : NetworkPolicy -> string.

(** [fmt.Sprintf("%s%s", fmt.Sprintf("kube.%s.", ns), name)]. *)
Definition fullPolicyName (kubePolicy : NetworkPolicy) : string :=
  (("kube." +:+ metaNamespace kubePolicy) +:+ ".") +:+ metaName kubePolicy.

(** The inner loop of syncNetworkPolicies: the index of the first romana
    policy with the name, counting from [pn]. *)
Fixpoint findPolicy (full : string) (pn : nat) (policies : list common.Policy)
  : option nat :=
  match policies with
  | [] => None
  | policy :: rest =>
      if String.eqb full (common.Name policy) then Some pn
      else findPolicy full (S pn) rest
  end.

(** One round of the first loop: [kubernetesEvents] and
    [accountedRomanaPolicies] are updated for one kubernetes policy. *)
Definition accountFor (policies : list common.Policy)
    (st : list (Event NetworkPolicy) * gset nat) (kubePolicy : NetworkPolicy)
  : list (Event NetworkPolicy) * gset nat :=
  match findPolicy (fullPolicyName kubePolicy) 0 policies with
  | Some pn => (fst st, snd st ∪ {[ pn ]})
  | None =>
      (fst st ++ [ {| EvType := KubeEventAdded;
                      EvObject := ObjNetworkPolicy kubePolicy |} ],
       snd st)
  end.

(** The second loop: the romana policies named kube.* that no kubernetes
    policy accounted for, [k] being the index of the head of the list. *)
Fixpoint obsolete (accounted : gset nat) (k : nat) (policies : list common.Policy)
  : list common.Policy :=
  match policies with
  | [] => []
  | policy :: rest =>
      if negb (String.prefix "kube." (common.Name policy)) then
        obsolete accounted (S k) rest
      else if bool_decide (k ∈ accounted) then
        obsolete accounted (S k) rest
      else
        policy :: obsolete accounted (S k) rest
  end.

(** syncNetworkPolicies compares a list of kubernetes network policies
    with romana network policies.  [fetched] is what [getAllPoliciesFunc]
    answered: an error or the romana policies. *)
Definition syncNetworkPolicies (fetched : string + list common.Policy)
    (kubePolicies : list NetworkPolicy)
  : list (Event NetworkPolicy) * list common.Policy * option string :=
  match fetched with
  | inl err => ([], [], Some err)
  | inr policies =>
      let st := fold_left (accountFor policies) kubePolicies ([], ∅) in
      (fst st, obsolete (snd st) 0 policies, None)
  end.

(** The translator and the policy client of the listener, which are not
    part of this package: [PTranslator.Kube2RomanaBulk] answers with the
    translated policies (the policies it failed on and its error are only
    logged), [applyNetworkPolicy] is recorded as an action. *)
Variable Kube2RomanaBulk : list NetworkPolicy -> list common.Policy.

Inductive networkPolicyAction : Type :=
| networkPolicyActionAdd
| networkPolicyActionDelete.

(** The first loop of handleNetworkPolicyEvents: [createEvents] and
    [deleteEvents].  [None] is the panic of a failed type assertion. *)
Fixpoint splitEvents (events : list (Event NetworkPolicy))
  : option (list NetworkPolicy * list NetworkPolicy) :=
  match events with
  | [] => Some ([], [])
  | event :: rest =>
      if String.eqb (EvType event) KubeEventAdded then
        match EvObject event with
        | ObjNetworkPolicy np =>
            match splitEvents rest with
            | Some (creates, deletes) => Some (np :: creates, deletes)
            | None => None
            end
        | _ => None
        end
      else if String.eqb (EvType event) KubeEventDeleted then
        match EvObject event with
        | ObjNetworkPolicy np =>
            match splitEvents rest with
            | Some (creates, deletes) => Some (creates, np :: deletes)
            | None => None
            end
        | _ => None
        end
      else splitEvents rest
  end.

(** handleNetworkPolicyEvents by creating or deleting romana policies:
    the calls of [applyNetworkPolicy], in order. *)
Definition handleNetworkPolicyEvents (events : list (Event NetworkPolicy))
  : option (list (networkPolicyAction * common.Policy)) :=
  match splitEvents events with
  | None => None
  | Some (createEvents, deleteEvents) =>
      let createPolicyList := Kube2RomanaBulk createEvents in
      let deletePolicyList := Kube2RomanaBulk deleteEvents in
      Some (map (fun p => (networkPolicyActionAdd, p)) createPolicyList
            ++ map (fun p => (networkPolicyActionDelete, p)) deletePolicyList)
  end.

End Policies.

(** *** manageResources

Channels are numbered; [make(chan Done)] takes the next number, and
closing a channel that is closed panics. *)

Definition chan : Type := positive.

Section Resources.
(** The values of [l.lastEventPerNamespace]. *)
Context {V : Type} {NetworkPolicy : Type}.

Record resources : Type := {
  terminators : gmap string chan;
  lastEventPerNamespace : gmap string V;
  closed : gset chan;
  nextChan : chan
}.

(** [close(c)]; [None] is the panic. *)
Definition closeChan (c : chan) (st : resources) : option resources :=
  if bool_decide (c ∈ closed st) then None
  else Some {| terminators := terminators st;
               lastEventPerNamespace := lastEventPerNamespace st;
               closed := closed st ∪ {[ c ]};
               nextChan := nextChan st |}.

(** [close(c); delete(terminators, uid); delete(l.lastEventPerNamespace, uid)]. *)
Definition terminate (uid : string) (c : chan) (st : resources) : option resources :=
  match closeChan c st with
  | None => None
  | Some st' =>
      Some {| terminators := delete uid (terminators st');
              lastEventPerNamespace := delete uid (lastEventPerNamespace st');
              closed := closed st';
              nextChan := nextChan st' |}
  end.

(** [for uid, c := range terminators { ... }], over the entries in the
    order the map gives them. *)
Fixpoint terminateEach (entries : list (string * chan)) (st : resources)
  : option resources :=
  match entries with
  | [] => Some st
  | (uid, c) :: rest =>
      match terminate uid c st with
      | None => None
      | Some st' => terminateEach rest st'
      end
  end.

(** manageResources manages map of termination channels.  [None] is a
    panic: of the type assertion on the event's object, or of [close]. *)
Definition manageResources (event : Event NetworkPolicy) (st : resources)
  : option resources :=
  match EvObject event with
  | ObjNamespace namespace =>
      let uid := UID namespace in
      if String.eqb (EvType event) KubeEventAdded then
        match terminators st !! uid with
        | Some _ => Some st
        | None =>
            Some {| terminators := <[ uid := nextChan st ]> (terminators st);
                    lastEventPerNamespace := lastEventPerNamespace st;
                    closed := closed st;
                    nextChan := Pos.succ (nextChan st) |}
        end
      else if String.eqb (EvType event) KubeEventDeleted then
        match terminators st !! uid with
        | None => Some st
        | Some c => terminate uid c st
        end
      else if String.eqb (EvType event) InternalEventDeleteAll then
        terminateEach (map_to_list (terminators st)) st
      else Some st
  | _ => None
  end.

(** The channels in the map are open, no two namespaces share one, and
    every channel in the map or closed was made before [nextChan]. *)
Definition consistent (st : resources) : Prop :=
  (forall uid c, terminators st !! uid = Some c ->
     (c ∉ closed st) /\ (c < nextChan st)%positive) /\
  (forall uid1 uid2 c, terminators st !! uid1 = Some c ->
     terminators st !! uid2 = Some c -> uid1 = uid2) /\
  (forall c, c ∈ closed st -> (c < nextChan st)%positive).

End Resources.
Arguments resources : clear implicits.

End kubernetes.

(** ** Sample objects of the listener *)

Module kubesample.

(** A kubernetes object named [name] in [namespace]. *)
Definition kubeObject (name namespace : string) : kubernetes.KubeObject :=
  {| kubernetes.Kind := "NetworkPolicy";
     kubernetes.ObjSpec :=
       {| kubernetes.SpecIngress := [];
          kubernetes.SpecPodSelector := {| kubernetes.MatchLabels := ∅ |} |};
     kubernetes.ApiVersion := "extensions/v1beta1";
     kubernetes.ObjMetadata :=
       {| kubernetes.Name := name; kubernetes.Namespace := namespace;
          kubernetes.SelfLink := ""; kubernetes.Uid := "";
          kubernetes.ResourceVersion := ""; kubernetes.CreationTimestamp := "";
          kubernetes.Labels := ∅; kubernetes.Annotations := ∅ |};
     kubernetes.Status := ∅ |}.

(** The same name and namespace on an object of another kind. *)
Definition namespaceObject (name namespace : string) : kubernetes.KubeObject :=
  {| kubernetes.Kind := "Namespace";
     kubernetes.ObjSpec :=
       {| kubernetes.SpecIngress := [];
          kubernetes.SpecPodSelector := {| kubernetes.MatchLabels := ∅ |} |};
     kubernetes.ApiVersion := "v1";
     kubernetes.ObjMetadata :=
       {| kubernetes.Name := name; kubernetes.Namespace := namespace;
          kubernetes.SelfLink := ""; kubernetes.Uid := "u-1";
          kubernetes.ResourceVersion := "7"; kubernetes.CreationTimestamp := "";
          kubernetes.Labels := ∅; kubernetes.Annotations := ∅ |};
     kubernetes.Status := ∅ |}.

(** A romana policy with a name and nothing else. *)
Definition named (name : string) : common.Policy :=
  {| common.Direction := "ingress"; common.Description := ""; common.Name := name;
     common.ID := 0; common.ExternalID := ""; common.AppliedTo := [];
     common.Ingress := [] |}.

(** Kubernetes network policies as pairs of a namespace and a name. *)
Definition kubePolicy (namespace name : string) : string * string := (namespace, name).

(** The event syncNetworkPolicies makes for a kubernetes policy without
    romana policy. *)
Definition addedEvent {NetworkPolicy : Type} (k : NetworkPolicy)
  : kubernetes.Event NetworkPolicy :=
  {| kubernetes.EvType := kubernetes.KubeEventAdded;
     kubernetes.EvObject := kubernetes.ObjNetworkPolicy k |}.

(** Three romana policies, one of them not made for kubernetes, and two
    kubernetes policies, one of them new. *)
Definition romanaPolicies : list common.Policy :=
  [named "kube.default.web"; named "kube.default.old"; named "manual"].

Definition kubePolicies : list (string * string) :=
  [kubePolicy "default" "web"; kubePolicy "default" "new"].

(** Two romana policies with the name of a kubernetes policy. *)
Definition doubled : list common.Policy :=
  [named "kube.default.web"; named "kube.default.web"].

(** A romana store and a cluster that agree. *)
Definition settledPolicies : list common.Policy :=
  [named "kube.default.web"; named "manual"].

Definition settledKubePolicies : list (string * string) :=
  [kubePolicy "default" "web"].

(** The translator of the samples: the romana policy of a kubernetes
    policy has its full name. *)
Definition translate (kubePolicies : list (string * string)) : list common.Policy :=
  map (fun k => named (kubernetes.fullPolicyName fst snd k)) kubePolicies.

Definition eventOf (type : string) (o : kubernetes.Object (string * string))
  : kubernetes.Event (string * string) :=
  {| kubernetes.EvType := type; kubernetes.EvObject := o |}.

(** A listener that manages no namespace yet. *)
Definition idle : kubernetes.resources N :=
  {| kubernetes.terminators := ∅; kubernetes.lastEventPerNamespace := ∅;
     kubernetes.closed := ∅; kubernetes.nextChan := 1%positive |}.

(** The listener after the ADDED event of the namespace uid-1. *)
Definition managing : kubernetes.resources N :=
  {| kubernetes.terminators := {[ "uid-1" := 1%positive ]};
     kubernetes.lastEventPerNamespace := ∅;
     kubernetes.closed := ∅; kubernetes.nextChan := 2%positive |}.

Definition namespaceEvent (type uid : string) : kubernetes.Event (string * string) :=
  eventOf type (kubernetes.ObjNamespace {| kubernetes.UID := uid;
                                           kubernetes.NsName := "default" |}).

End kubesample.

(** * Properties *)

(** ** insertionSort meets the contract of sort.Sort *)

Section InsertionSortFacts.
Context {A : Type} (less : A -> A -> bool).

Lemma sink_perm x rp : sink less x rp ≡ₚ x :: rp.
Proof.
  induction rp as [|y rp IH]; simpl; [done|].
  destruct (less x y); [|done].
  rewrite IH. apply Permutation_swap.
Qed.

Lemma insertionLoop_perm rp l : insertionLoop less rp l ≡ₚ reverse rp ++ l.
Proof.
  revert rp. induction l as [|x l IH]; intros rp; simpl.
  - by rewrite app_nil_r.
  - rewrite IH, !reverse_Permutation, sink_perm. simpl.
    apply Permutation_middle.
Qed.

Lemma sink_descending x rp :
  StrictWeak less -> descending less rp -> descending less (sink less x rp).
Proof.
  intros SW. induction rp as [|y rp IH]; intros Hs; simpl.
  - repeat constructor.
  - apply StronglySorted_inv in Hs as [Hrp Hy].
    destruct (less x y) eqn:Hxy.
    + constructor; [by apply IH|].
      rewrite Forall_forall. intros z Hz.
      rewrite sink_perm in Hz. apply elem_of_cons in Hz as [->|Hz].
      * by apply (sw_asym _ SW).
      * rewrite Forall_forall in Hy. by apply Hy.
    + constructor; [by constructor|].
      constructor; [done|].
      rewrite Forall_forall in Hy |- *. intros z Hz.
      apply (sw_negtrans _ SW _ y); [by apply Hy|done].
Qed.

Lemma descending_reverse rp : descending less rp -> ascending less (reverse rp).
Proof.
  unfold descending, ascending.
  induction 1 as [|y rp Hrp IH Hy]; [rewrite reverse_nil; constructor|].
  rewrite reverse_cons. apply StronglySorted_app.
  split_and!; [|exact IH|repeat constructor].
  intros x1 x2 Hx1 ->%list_elem_of_singleton. unfold notAfter.
  rewrite Forall_forall in Hy. apply Hy. by apply elem_of_reverse.
Qed.

Lemma insertionLoop_ascending rp l :
  StrictWeak less -> descending less rp -> ascending less (insertionLoop less rp l).
Proof.
  intros SW. revert rp. induction l as [|x l IH]; intros rp Hrp; simpl.
  - by apply descending_reverse.
  - by apply IH, sink_descending.
Qed.

Lemma insertionLoop_sorted_input rp l :
  ascending less (reverse rp ++ l) -> insertionLoop less rp l = reverse rp ++ l.
Proof.
  revert rp. induction l as [|x l IH]; intros rp Hs; simpl.
  - by rewrite app_nil_r.
  - assert (sink less x rp = x :: rp) as ->.
    { destruct rp as [|y rp]; simpl; [done|].
      assert (less x y = false) as ->; [|done].
      apply (StronglySorted_app_1_elem_of _ _ _ y x) in Hs; [done| |by left].
      rewrite reverse_cons. apply elem_of_app. right. by left. }
    rewrite IH; rewrite reverse_cons, <-app_assoc; done.
Qed.

End InsertionSortFacts.



Lemma insertionSort_permutes : sort_permutes insertionSort.
Proof. intros A less l. apply insertionLoop_perm. Qed.

Lemma insertionSort_ascends : sort_ascends insertionSort.
Proof.
  intros A less l SW. apply insertionLoop_ascending; [done|constructor].
Qed.

Lemma insertionSort_keeps_sorted : sort_keeps_sorted insertionSort.
Proof. intros A less l Hs. by apply (insertionLoop_sorted_input less []). Qed.

(** ** Consequences of the contract *)

Section SortFacts.
Variable sort : sorter.
Hypothesis sort_perm : sort_permutes sort.
Hypothesis sort_asc : sort_ascends sort.

Lemma sort_nil {A : Type} (less : A -> A -> bool) : sort A less [] = [].
Proof. apply Permutation_nil_r, sort_perm. Qed.

Lemma sort_length {A : Type} (less : A -> A -> bool) l :
  length (sort A less l) = length l.
Proof. apply Permutation_length, sort_perm. Qed.

(** Two orderings of the same elements sort to the same list, provided
    elements that [less] cannot tell apart are the same element. *)
Lemma sort_of_permutation {A : Type} (less : A -> A -> bool) (l1 l2 : list A) :
  StrictWeak less ->
  (forall x y, x ∈ l1 -> y ∈ l1 -> less x y = false -> less y x = false -> x = y) ->
  l1 ≡ₚ l2 ->
  sort A less l1 = sort A less l2.
Proof.
  intros SW Hties Hp.
  pose proof (sort_perm A less l1) as P1.
  pose proof (sort_perm A less l2) as P2.
  apply (StronglySorted_unique_strong (notAfter less)).
  - intros x y Hx Hy Hxy Hyx. unfold notAfter in *.
    apply Hties; [by rewrite <-P1|by rewrite Hp, <-P2|done..].
  - by apply sort_asc.
  - by apply sort_asc.
  - by rewrite P1, P2.
Qed.

Hypothesis sort_keep : sort_keeps_sorted sort.

Lemma sort_idempotent {A : Type} (less : A -> A -> bool) l :
  StrictWeak less -> sort A less (sort A less l) = sort A less l.
Proof. intros SW. by apply sort_keep, sort_asc. Qed.

End SortFacts.

(** ** The Less methods are strict weak orderings *)

Lemma string_ltb_leb (s t : string) : String.ltb s t = negb (String.leb t s).
Proof.
  unfold String.ltb, String.leb. rewrite (String.compare_antisym s t).
  by destruct (String.compare t s).
Qed.

Lemma string_ltb_false (s t : string) : String.ltb s t = false <-> String.le t s.
Proof.
  rewrite string_ltb_leb, negb_false_iff. unfold String.le.
  by rewrite Is_true_true.
Qed.

Lemma StrictWeak_string_key {A : Type} (f : A -> string) :
  StrictWeak (fun x y => String.ltb (f x) (f y)).
Proof.
  split.
  - intros x y Hxy. apply string_ltb_false.
    destruct (total String.le (f x) (f y)) as [H|H]; [done|].
    apply string_ltb_false in H. congruence.
  - intros x y z Hyx Hzy. apply string_ltb_false.
    apply string_ltb_false in Hyx, Hzy. by etrans.
Qed.

Lemma StrictWeak_N_key {A : Type} (f : A -> N) :
  StrictWeak (fun x y => f x <? f y).
Proof.
  split.
  - intros x y. rewrite N.ltb_lt, N.ltb_ge. lia.
  - intros x y z. rewrite !N.ltb_ge. lia.
Qed.

Lemma EndpointList_Less_StrictWeak : StrictWeak hasher.EndpointList_Less.
Proof. apply (StrictWeak_string_key hasher.key). Qed.

Lemma UintSlice_Less_StrictWeak : StrictWeak hasher.UintSlice_Less.
Proof. apply (StrictWeak_N_key id). Qed.

Lemma PortRangeSlice_Less_StrictWeak : StrictWeak hasher.PortRangeSlice_Less.
Proof. apply (StrictWeak_N_key hasher.rangeKey). Qed.

Lemma string_ltb_ties (s t : string) :
  String.ltb s t = false -> String.ltb t s = false -> s = t.
Proof.
  intros H1%string_ltb_false H2%string_ltb_false.
  by apply (anti_symm String.le).
Qed.

(** ** The canonical form *)

Section CanonicalFacts.
Import common hasher relate.

Variable sort : sorter.
Hypothesis sort_perm : sort_permutes sort.

Lemma sortEndpoints_perm (l : list Endpoint) : sortEndpoints sort l ≡ₚ l.
Proof.
  unfold sortEndpoints, EndpointList_Sort, EndpointList_List, NewEndpointList.
  rewrite (sort_perm _ _ _), map_map. simpl. by rewrite map_id.
Qed.

Lemma RuleToCanonical_content (r : Rule) : ruleContent r (RuleToCanonical sort r).
Proof. unfold ruleContent. simpl. split_and!; try done; apply sort_perm. Qed.

Lemma IngressToCanonical_content (i : RomanaIngress) :
  ingressContent i (IngressToCanonical sort i).
Proof.
  split; simpl; [apply sortEndpoints_perm|].
  induction (Rules i) as [|r rs IH]; simpl; constructor;
    [apply RuleToCanonical_content|done].
Qed.

Lemma PolicyToCanonical_content (p : Policy) :
  policyContent p (PolicyToCanonical sort p).
Proof.
  unfold policyContent. simpl. split_and!; try done; [apply sortEndpoints_perm|].
  induction (Ingress p) as [|i rest IH]; simpl; constructor;
    [apply IngressToCanonical_content|done].
Qed.

Hypothesis sort_asc : sort_ascends sort.

(** Sorting the key groups of a reordered list. *)
Lemma sortEndpoints_of_permutation (l1 l2 : list Endpoint) :
  keysIdentify l1 -> l1 ≡ₚ l2 -> sortEndpoints sort l1 = sortEndpoints sort l2.
Proof.
  intros Hk Hp. unfold sortEndpoints, EndpointList_Sort. f_equal.
  apply (sort_of_permutation sort sort_perm sort_asc).
  - apply EndpointList_Less_StrictWeak.
  - intros x y Hx Hy Hxy Hyx. unfold NewEndpointList in Hx, Hy.
    apply list_elem_of_In, in_map_iff in Hx as (ex & <- & Hex).
    apply list_elem_of_In, in_map_iff in Hy as (ey & <- & Hey).
    apply list_elem_of_In in Hex, Hey.
    unfold EndpointList_Less in Hxy, Hyx. simpl in Hxy, Hyx.
    by rewrite (Hk ex ey Hex Hey (string_ltb_ties _ _ Hxy Hyx)).
  - unfold NewEndpointList. by apply Permutation_map.
Qed.

Lemma sort_Ports_of_permutation (l1 l2 : list N) :
  l1 ≡ₚ l2 -> sort _ UintSlice_Less l1 = sort _ UintSlice_Less l2.
Proof.
  intros Hp. apply (sort_of_permutation sort sort_perm sort_asc); [|  |done].
  - apply UintSlice_Less_StrictWeak.
  - intros x y _ _. unfold UintSlice_Less. rewrite !N.ltb_ge. lia.
Qed.

Lemma sort_PortRanges_of_permutation (l1 l2 : list PortRange) :
  differencesIdentify l1 -> l1 ≡ₚ l2 ->
  sort _ PortRangeSlice_Less l1 = sort _ PortRangeSlice_Less l2.
Proof.
  intros Hd Hp. apply (sort_of_permutation sort sort_perm sort_asc); [| |done].
  - apply PortRangeSlice_Less_StrictWeak.
  - intros x y Hx Hy. unfold PortRangeSlice_Less. rewrite !N.ltb_ge.
    intros ??. apply Hd; [done..|lia].
Qed.

Hypothesis sort_keep : sort_keeps_sorted sort.

Lemma sortEndpoints_idempotent (l : list Endpoint) :
  sortEndpoints sort (sortEndpoints sort l) = sortEndpoints sort l.
Proof.
  unfold sortEndpoints, EndpointList_Sort, EndpointList_List.
  set (s := sort _ EndpointList_Less (NewEndpointList l)).
  assert (NewEndpointList (map endpoint s) = s) as ->.
  { assert (Forall (fun x => key x = EndpointToString (endpoint x)) s) as Hs.
    { rewrite Forall_forall. intros x Hx. unfold s in Hx.
      rewrite (sort_perm _ _ _) in Hx.
      by apply list_elem_of_In, in_map_iff in Hx as (e & <- & _). }
    induction Hs as [|[e k] s' Hx _ IH]; simpl; [done|].
    simpl in Hx. by rewrite IH, Hx. }
  unfold s. f_equal.
  apply (sort_idempotent sort sort_asc sort_keep), EndpointList_Less_StrictWeak.
Qed.

Lemma RuleToCanonical_idempotent (r : Rule) :
  RuleToCanonical sort (RuleToCanonical sort r) = RuleToCanonical sort r.
Proof.
  unfold RuleToCanonical. simpl. f_equal.
  - apply (sort_idempotent sort sort_asc sort_keep), UintSlice_Less_StrictWeak.
  - apply (sort_idempotent sort sort_asc sort_keep), PortRangeSlice_Less_StrictWeak.
Qed.

Lemma IngressToCanonical_idempotent (i : RomanaIngress) :
  IngressToCanonical sort (IngressToCanonical sort i) = IngressToCanonical sort i.
Proof.
  unfold IngressToCanonical. simpl. f_equal.
  - apply sortEndpoints_idempotent.
  - rewrite map_map. apply map_ext. intros r. apply RuleToCanonical_idempotent.
Qed.

End CanonicalFacts.

(** C10. PolicyToCanonical preserves policy content: the output has the
    input's Direction, Description, Name, ID and ExternalID; its AppliedTo
    is a permutation of the input's; it has the same Ingress entries in the
    same order, each with a permutation of the input entry's Peers and,
    rule by rule, the same protocol, icmp fields and stateful flag with a
    permutation of the Ports and of the PortRanges. *)
Theorem PolicyToCanonical_preserves_content (sort : sorter) (p : common.Policy) :
  sort_permutes sort ->
  relate.policyContent p (hasher.PolicyToCanonical sort p).
Proof. intros Hperm. by apply PolicyToCanonical_content. Qed.

Lemma PolicyToCanonical_preserves_content_witness :
  sort_permutes insertionSort /\
  relate.policyContent sample.policy1
    (hasher.PolicyToCanonical insertionSort sample.policy1).
Proof.
  split; [exact insertionSort_permutes|].
  apply (PolicyToCanonical_preserves_content insertionSort sample.policy1).
  exact insertionSort_permutes.
Defined.



Lemma RuleToCanonical_of_content (sort : sorter) (r r' : common.Rule) :
  sort_permutes sort -> sort_ascends sort ->
  relate.differencesIdentify (common.PortRanges r) ->
  relate.ruleContent r r' ->
  hasher.RuleToCanonical sort r' = hasher.RuleToCanonical sort r.
Proof.
  intros Hperm Hasc Hd (HP & Hports & Hranges & Ht & Hc & Hs).
  unfold hasher.RuleToCanonical. rewrite HP, Ht, Hc, Hs. f_equal.
  - symmetry. by apply sort_Ports_of_permutation.
  - symmetry. by apply sort_PortRanges_of_permutation.
Qed.

Lemma IngressToCanonical_of_content (sort : sorter) (i i' : common.RomanaIngress) :
  sort_permutes sort -> sort_ascends sort ->
  relate.keysIdentify (common.Peers i) ->
  Forall (fun r => relate.differencesIdentify (common.PortRanges r)) (common.Rules i) ->
  relate.ingressContent i i' ->
  hasher.IngressToCanonical sort i' = hasher.IngressToCanonical sort i.
Proof.
  intros Hperm Hasc Hk Hd [Hpeers Hrules].
  unfold hasher.IngressToCanonical. f_equal.
  - symmetry. by apply sortEndpoints_of_permutation.
  - induction Hrules as [|r r' rs rs' Hr _ IH]; simpl; [done|].
    apply Forall_cons in Hd as [Hd1 Hd2]. f_equal; [|by apply IH].
    by apply RuleToCanonical_of_content.
Qed.

Lemma PolicyToCanonical_of_content (sort : sorter) (p p' : common.Policy) :
  sort_permutes sort -> sort_ascends sort ->
  relate.tieFree p ->
  relate.policyContent p p' ->
  hasher.PolicyToCanonical sort p' = hasher.PolicyToCanonical sort p.
Proof.
  intros Hperm Hasc [Hk Hties] (HD & HDe & HN & HI & HE & Happ & Hing).
  unfold hasher.PolicyToCanonical. rewrite HD, HDe, HN, HI, HE. f_equal.
  - symmetry. by apply sortEndpoints_of_permutation.
  - induction Hing as [|i i' rest rest' Hi _ IH]; simpl; [done|].
    apply Forall_cons in Hties as [[Hk1 Hd1] Hties]. f_equal; [|by apply IH].
    by apply IngressToCanonical_of_content.
Qed.


(** Without ties the documented contract of sort.Sort is enough for
    idempotence: the canonical form is a reordering of the policy. *)
Lemma PolicyToCanonical_idempotent_tieFree (sort : sorter) (p : common.Policy) :
  sort_permutes sort -> sort_ascends sort ->
  relate.tieFree p ->
  hasher.PolicyToCanonical sort (hasher.PolicyToCanonical sort p)
  = hasher.PolicyToCanonical sort p.
Proof.
  intros Hperm Hasc Hties.
  apply PolicyToCanonical_of_content; [done..|].
  by apply PolicyToCanonical_content.
Qed.

(** Decides a tie condition on an explicit list: each pair is either one
    element twice or two elements whose keys differ. *)
Ltac no_ties :=
  let x := fresh "x" in let y := fresh "y" in
  let Hx := fresh "Hx" in let Hy := fresh "Hy" in let Hxy := fresh "Hxy" in
  intros x y Hx Hy Hxy;
  repeat (apply elem_of_cons in Hx as [->|Hx]);
  try (by apply elem_of_nil in Hx);
  repeat (apply elem_of_cons in Hy as [->|Hy]);
  try (by apply elem_of_nil in Hy);
  try reflexivity; vm_compute in Hxy; discriminate.

Lemma policy1_tieFree : relate.tieFree sample.policy1.
Proof.
  split; [no_ties|].
  repeat constructor; no_ties.
Qed.

Lemma policy1_reordered : relate.policyContent sample.policy1 sample.policy1'.
Proof.
  unfold relate.policyContent. simpl. split_and!; try done.
  - apply Permutation_swap.
  - constructor; [|constructor]. split; simpl; [apply Permutation_swap|].
    constructor; [|constructor; [|constructor]].
    + unfold relate.ruleContent. simpl. split_and!; try done.
      change [8080; 99; 80] with ([8080] ++ [99; 80]).
      change [99; 80; 8080] with ([99; 80] ++ [8080]).
      apply Permutation_app_comm.
    + unfold relate.ruleContent. simpl. split_and!; try done.
      apply Permutation_swap.
Qed.



(** The order of an entry's rules is the input's: IngressToCanonical maps
    RuleToCanonical over them and does not call RulesToCanonical. *)
Lemma PolicyToCanonical_keeps_rule_order :
  relate.policyReordered sample.rulesAB sample.rulesBA /\
  hasher.PolicyToCanonical insertionSort sample.rulesBA
  <> hasher.PolicyToCanonical insertionSort sample.rulesAB.
Proof.
  split.
  - unfold relate.policyReordered. simpl. split_and!; try done.
    constructor; [|constructor]. split; simpl; [done|].
    exists [sample.rangeRule []; sample.tcpRule].
    split; [apply Permutation_swap|].
    constructor; [|constructor; [|constructor]];
      unfold relate.ruleContent; simpl; split_and!; done.
  - vm_compute. discriminate.
Qed.

(** Two different peers with one key stay in the order of the input. *)
Lemma PolicyToCanonical_keeps_order_of_equal_keys :
  relate.policyContent sample.peersAB sample.peersBA /\
  hasher.PolicyToCanonical insertionSort sample.peersBA
  <> hasher.PolicyToCanonical insertionSort sample.peersAB.
Proof.
  split.
  - unfold relate.policyContent. simpl. split_and!; try done.
    constructor; [|constructor]. split; simpl; [apply Permutation_swap|constructor].
  - vm_compute. discriminate.
Qed.

(** ** Keys *)

(** C4, as it holds.  Two endpoints with equal field values, an absent
    TenantNetworkID or SegmentNetworkID read as zero, have the same key. *)
Theorem EndpointToString_of_same_fields (e1 e2 : common.Endpoint) :
  relate.sameFields e1 e2 ->
  hasher.EndpointToString e1 = hasher.EndpointToString e2.
Proof.
  intros (H1 & H2 & H3 & H4 & H5 & H6 & H7 & H8 & H9 & H10 & H11).
  unfold hasher.EndpointToString.
  fold (relate.networkID (common.TenantNetworkID e1)).
  fold (relate.networkID (common.TenantNetworkID e2)).
  fold (relate.networkID (common.SegmentNetworkID e1)).
  fold (relate.networkID (common.SegmentNetworkID e2)).
  by rewrite H1, H2, H3, H4, H5, H6, H7, H8, H9, H10, H11.
Qed.

Lemma EndpointToString_of_same_fields_witness :
  relate.sameFields sample.endpoint0 sample.endpointZero /\
  hasher.EndpointToString sample.endpoint0
  = hasher.EndpointToString sample.endpointZero.
Proof.
  assert (relate.sameFields sample.endpoint0 sample.endpointZero) as H.
  { unfold relate.sameFields. simpl. split_and!; reflexivity. }
  split; [exact H|].
  exact (EndpointToString_of_same_fields sample.endpoint0 sample.endpointZero H).
Defined.

(** C4, as stated, fails: an endpoint whose Peer is "a" and one whose Cidr
    is "a" differ in two fields and have the same key, since nothing
    separates the fields in the key. *)
Lemma EndpointToString_not_injective :
  hasher.EndpointToString (sample.withPeer "a")
  = hasher.EndpointToString (sample.withCidr "a") /\
  ~ relate.sameFields (sample.withPeer "a") (sample.withCidr "a").
Proof.
  split; [reflexivity|].
  intros (H & _). discriminate H.
Qed.

(** ** The order of port ranges *)

Lemma rangeKey_wellFormed (p : common.PortRange) :
  relate.wellFormedRange p ->
  hasher.rangeKey p = (Go.uint_mod - relate.width p) mod Go.uint_mod.
Proof.
  destruct p as [lo hi]. unfold relate.wellFormedRange, relate.width,
    hasher.rangeKey, Go.uint_sub. cbn [fst snd]. intros [Hle Hlt].
  set (m := Go.uint_mod) in *.
  assert (0 < m) as Hm by (vm_compute; reflexivity).
  apply N2Z.inj. rewrite N2Z.inj_mod, Z2N.id by (apply Z.mod_pos_bound; lia).
  rewrite <-(Z_mod_plus_full (Z.of_N lo - Z.of_N hi) 1 (Z.of_N m)).
  f_equal. lia.
Qed.

(** C5, as it holds.  PortRangeSlice.Less compares the unsigned difference
    [low - high], which wraps around: for [low <= high] it is the
    non-negative number [(2^64 - width) mod 2^64], that is 0 for a range of
    one port and [2^64 - width] for a wider one.  Two ranges of equal
    width compare equal wherever they lie. *)
Theorem PortRangeSlice_Less_by_wrapped_difference (p q : common.PortRange) :
  relate.wellFormedRange p -> relate.wellFormedRange q ->
  hasher.rangeKey p = (Go.uint_mod - relate.width p) mod Go.uint_mod /\
  hasher.PortRangeSlice_Less p q
  = ((Go.uint_mod - relate.width p) mod Go.uint_mod
     <? (Go.uint_mod - relate.width q) mod Go.uint_mod) /\
  (relate.width p = relate.width q ->
   hasher.PortRangeSlice_Less p q = false /\ hasher.PortRangeSlice_Less q p = false).
Proof.
  intros Hp Hq. unfold hasher.PortRangeSlice_Less.
  rewrite (rangeKey_wellFormed p Hp), (rangeKey_wellFormed q Hq).
  split_and!; [done..|].
  intros ->. by rewrite N.ltb_irrefl.
Qed.

Lemma PortRangeSlice_Less_by_wrapped_difference_witness :
  (relate.wellFormedRange (1, 3) /\ relate.wellFormedRange (80, 82)) /\
  hasher.rangeKey (1, 3) = (Go.uint_mod - relate.width (1, 3)) mod Go.uint_mod /\
  hasher.PortRangeSlice_Less (1, 3) (80, 82)
  = ((Go.uint_mod - relate.width (1, 3)) mod Go.uint_mod
     <? (Go.uint_mod - relate.width (80, 82)) mod Go.uint_mod) /\
  (relate.width (1, 3) = relate.width (80, 82) ->
   hasher.PortRangeSlice_Less (1, 3) (80, 82) = false /\
   hasher.PortRangeSlice_Less (80, 82) (1, 3) = false).
Proof.
  assert (relate.wellFormedRange (1, 3)) as H1 by (vm_compute; done).
  assert (relate.wellFormedRange (80, 82)) as H2 by (vm_compute; done).
  split; [exact (conj H1 H2)|].
  exact (PortRangeSlice_Less_by_wrapped_difference (1, 3) (80, 82) H1 H2).
Defined.

(** C5, as stated, fails: the compared quantity is not the non-positive
    integer [low - high].  The range [5,5] is less than the range [1,3],
    although [5 - 5] is not below [1 - 3]; and the quantity compared for
    [1,3] is [2^64 - 2], which is positive and whose magnitude is not the
    width 2. *)
Lemma PortRangeSlice_Less_not_by_signed_difference :
  hasher.PortRangeSlice_Less (5, 5) (1, 3) = true /\
  ~ Z.lt (relate.signedDifference (5, 5)) (relate.signedDifference (1, 3)) /\
  hasher.rangeKey (1, 3) = 18446744073709551614 /\
  relate.width (1, 3) = 2.
Proof.
  split_and!; [reflexivity| |reflexivity|reflexivity].
  vm_compute. discriminate.
Qed.

(** ** The canonical string of a rule *)

Lemma sort_ports_99_80_8080 (sort : sorter) :
  sort_permutes sort -> sort_ascends sort ->
  sort _ hasher.UintSlice_Less [99; 80; 8080] = [80; 99; 8080].
Proof.
  intros Hperm Hasc.
  apply (StronglySorted_unique_strong (notAfter hasher.UintSlice_Less)).
  - intros x y _ _. unfold notAfter, hasher.UintSlice_Less.
    rewrite !N.ltb_ge. lia.
  - apply Hasc, UintSlice_Less_StrictWeak.
  - repeat constructor.
  - rewrite (Hperm _ _ _). apply Permutation_swap.
Qed.

(** C6, as it holds.  For the rule {Protocol:"TCP", Ports:[99,80,8080]}
    canonicalization yields Ports=[80,99,8080], and RuleToString gives
    "TCP8099808000false": the protocol, the ascending ports 80, 99 and
    8080, no port ranges, then IcmpType 0, IcmpCode 0 and IsStateful
    false.  The string starts with "TCP80998080". *)
Theorem RuleToString_tcp_ports (sort : sorter) :
  sort_permutes sort -> sort_ascends sort ->
  common.Ports (hasher.RuleToCanonical sort sample.tcpRule) = [80; 99; 8080] /\
  hasher.RuleToString sort sample.tcpRule = "TCP8099808000false" /\
  String.prefix "TCP80998080" (hasher.RuleToString sort sample.tcpRule) = true.
Proof.
  intros Hperm Hasc.
  assert (hasher.RuleToCanonical sort sample.tcpRule
          = {| common.Protocol := "TCP"; common.Ports := [80; 99; 8080];
               common.PortRanges := []; common.IcmpType := 0;
               common.IcmpCode := 0; common.IsStateful := false |}) as Hc.
  { unfold hasher.RuleToCanonical, sample.tcpRule. simpl.
    by rewrite (sort_ports_99_80_8080 sort Hperm Hasc), (sort_nil sort Hperm). }
  unfold hasher.RuleToString. rewrite Hc. split_and!; reflexivity.
Qed.

Lemma RuleToString_tcp_ports_witness :
  (sort_permutes insertionSort /\ sort_ascends insertionSort) /\
  common.Ports (hasher.RuleToCanonical insertionSort sample.tcpRule) = [80; 99; 8080] /\
  hasher.RuleToString insertionSort sample.tcpRule = "TCP8099808000false" /\
  String.prefix "TCP80998080" (hasher.RuleToString insertionSort sample.tcpRule) = true.
Proof.
  split; [exact (conj insertionSort_permutes insertionSort_ascends)|].
  exact (RuleToString_tcp_ports insertionSort
           insertionSort_permutes insertionSort_ascends).
Defined.

(** C6, as stated, fails: the canonical string of the rule does not start
    with "TCP808099"; port 99 is written before port 8080. *)
Lemma RuleToString_tcp_ports_not_808099 :
  common.Ports (hasher.RuleToCanonical insertionSort sample.tcpRule) = [80; 99; 8080] /\
  String.prefix "TCP808099" (hasher.RuleToString insertionSort sample.tcpRule) = false.
Proof. split; reflexivity. Qed.

(** ** PolicyToCanonical and the caller's arrays *)

(** C2 fails on the code.  [sorted := unsorted] copies the slice headers of a
    rule, and sort.Sort reorders the array the caller's rule points to:
    after PolicyToCanonical the Ports of the input policy read
    [80, 99, 8080] where they read [99, 80, 8080] before. *)
Lemma PolicyToCanonical_sorts_callers_Ports :
  let h := sample.store1 in
  let h' := snd (Mem.PolicyToCanonical insertionSort sample.storedPolicy h) in
  Mem.readPolicy h sample.storedPolicy = sample.policyOf [] [] [sample.tcpRule] /\
  Mem.readPolicy h' sample.storedPolicy
  = sample.policyOf [] []
      [ {| common.Protocol := "TCP"; common.Ports := [80; 99; 8080];
           common.PortRanges := []; common.IcmpType := 0; common.IcmpCode := 0;
           common.IsStateful := false |} ] /\
  Mem.readPolicy h' sample.storedPolicy <> Mem.readPolicy h sample.storedPolicy.
Proof.
  split_and!; [reflexivity|reflexivity|].
  vm_compute. discriminate.
Qed.

Lemma store_eq (h1 h2 : Mem.store) :
  Mem.uints h1 = Mem.uints h2 -> Mem.ranges h1 = Mem.ranges h2 -> h1 = h2.
Proof. destruct h1, h2. simpl. by intros -> ->. Qed.

Section StoreFacts.
Variable sort : sorter.
Hypothesis sort_perm : sort_permutes sort.
Hypothesis sort_asc : sort_ascends sort.
Hypothesis sort_keep : sort_keeps_sorted sort.

Lemma lookup_imap_total {A : Type} (g : Mem.addr -> A -> A)
    (m : gmap Mem.addr A) (a : Mem.addr) :
  map_imap (fun b x => Some (g b x)) m !! a = g a <$> m !! a.
Proof. rewrite map_lookup_imap. by destruct (m !! a). Qed.

(** Sorting one more array of a map in which the arrays at [Sp] are
    sorted. *)
Lemma alter_sort_imap {A : Type} (less : A -> A -> bool) (Sp : gset Mem.addr)
    (a : Mem.addr) (m : gmap Mem.addr (list A)) :
  StrictWeak less ->
  alter (sort A less) a
    (map_imap (fun b l => Some (if decide (b ∈ Sp) then sort A less l else l)) m)
  = map_imap (fun b l => Some (if decide (b ∈ Sp ∪ {[a]}) then sort A less l else l)) m.
Proof.
  intros SW. apply map_eq. intros b.
  rewrite lookup_alter, !lookup_imap_total.
  destruct (decide (a = b)) as [->|Hab].
  - rewrite <-option_fmap_compose. apply option_fmap_ext. intros l.
    unfold compose.
    rewrite (decide_True (P := b ∈ Sp ∪ {[b]})) by set_solver.
    destruct (decide (b ∈ Sp)); [|done].
    by rewrite (sort_idempotent sort sort_asc sort_keep).
  - apply option_fmap_ext. intros l.
    destruct (decide (b ∈ Sp)).
    + by rewrite decide_True by (apply elem_of_union; by left).
    + rewrite decide_False; [done|].
      intros [?|?%elem_of_singleton]%elem_of_union; done.
Qed.

Lemma sortedAt_empty (h : Mem.store) : Mem.sortedAt sort ∅ ∅ h = h.
Proof.
  apply store_eq; cbn [Mem.sortedAt Mem.uints Mem.ranges]; apply map_eq; intros b;
    rewrite lookup_imap_total; by destruct (_ !! b).
Qed.

Lemma sortUints_sortedAt (s : Mem.slice) (Sp Sr : gset Mem.addr) (h : Mem.store) :
  Mem.sortUints sort s (Mem.sortedAt sort Sp Sr h)
  = (tt, Mem.sortedAt sort (Sp ∪ Mem.sliceAddr s) Sr h).
Proof.
  destruct s as [a|]; cbn [Mem.sortUints Mem.sliceAddr].
  - f_equal. apply store_eq; cbn [Mem.sortedAt Mem.uints Mem.ranges]; [|done].
    apply alter_sort_imap, UintSlice_Less_StrictWeak.
  - by rewrite (right_id_L ∅ (∪)).
Qed.

Lemma sortRanges_sortedAt (s : Mem.slice) (Sp Sr : gset Mem.addr) (h : Mem.store) :
  Mem.sortRanges sort s (Mem.sortedAt sort Sp Sr h)
  = (tt, Mem.sortedAt sort Sp (Sr ∪ Mem.sliceAddr s) h).
Proof.
  destruct s as [a|]; cbn [Mem.sortRanges Mem.sliceAddr].
  - f_equal. apply store_eq; cbn [Mem.sortedAt Mem.uints Mem.ranges]; [done|].
    apply alter_sort_imap, PortRangeSlice_Less_StrictWeak.
  - by rewrite (right_id_L ∅ (∪)).
Qed.

Lemma RuleToCanonical_sortedAt (r : Mem.Rule) (Sp Sr : gset Mem.addr) (h : Mem.store) :
  Mem.RuleToCanonical sort r (Mem.sortedAt sort Sp Sr h)
  = (r, Mem.sortedAt sort (Sp ∪ Mem.sliceAddr (Mem.Ports r))
                          (Sr ∪ Mem.sliceAddr (Mem.PortRanges r)) h).
Proof.
  unfold Mem.RuleToCanonical, Mem.bind, Mem.ret.
  by rewrite sortUints_sortedAt, sortRanges_sortedAt.
Qed.

Lemma forEach_RuleToCanonical_sortedAt (rs : list Mem.Rule) (Sp Sr : gset Mem.addr)
    (h : Mem.store) :
  Mem.forEach (Mem.RuleToCanonical sort) rs (Mem.sortedAt sort Sp Sr h)
  = (rs, Mem.sortedAt sort (Sp ∪ Mem.portAddrs rs) (Sr ∪ Mem.rangeAddrs rs) h).
Proof.
  unfold Mem.portAddrs, Mem.rangeAddrs.
  revert Sp Sr. induction rs as [|r rs IH]; intros Sp Sr;
    cbn [Mem.forEach map union_list foldr].
  - unfold Mem.ret. by rewrite !(right_id_L ∅ (∪)).
  - unfold Mem.bind at 1. rewrite RuleToCanonical_sortedAt.
    unfold Mem.bind at 1. rewrite IH. unfold Mem.ret.
    by rewrite !(assoc_L (∪)).
Qed.

Lemma forEach_IngressToCanonical_sortedAt (ins : list Mem.RomanaIngress)
    (Sp Sr : gset Mem.addr) (h : Mem.store) :
  Mem.forEach (Mem.IngressToCanonical sort) ins (Mem.sortedAt sort Sp Sr h)
  = (map (Mem.ingressResult sort) ins,
     Mem.sortedAt sort
       (Sp ∪ ⋃ (map (fun i => Mem.portAddrs (Mem.Rules i)) ins))
       (Sr ∪ ⋃ (map (fun i => Mem.rangeAddrs (Mem.Rules i)) ins)) h).
Proof.
  revert Sp Sr. induction ins as [|i ins IH]; intros Sp Sr;
    cbn [Mem.forEach map union_list foldr].
  - unfold Mem.ret. by rewrite !(right_id_L ∅ (∪)).
  - unfold Mem.bind at 1. unfold Mem.IngressToCanonical at 1.
    unfold Mem.bind at 1. rewrite forEach_RuleToCanonical_sortedAt.
    unfold Mem.ret at 1. unfold Mem.bind at 1. rewrite IH. unfold Mem.ret.
    by rewrite !(assoc_L (∪)).
Qed.

(** What PolicyToCanonical returns and what it leaves in the store. *)
Lemma PolicyToCanonical_run (p : Mem.Policy) (h : Mem.store) :
  Mem.PolicyToCanonical sort p h
  = ({| Mem.Direction := Mem.Direction p;
        Mem.Description := Mem.Description p;
        Mem.Name := Mem.Name p;
        Mem.ID := Mem.ID p;
        Mem.ExternalID := Mem.ExternalID p;
        Mem.AppliedTo := hasher.sortEndpoints sort (Mem.AppliedTo p);
        Mem.Ingress := map (Mem.ingressResult sort) (Mem.Ingress p) |},
     Mem.sortedAt sort (Mem.policyPortAddrs p) (Mem.policyRangeAddrs p) h).
Proof.
  unfold Mem.PolicyToCanonical, Mem.bind.
  rewrite <-(sortedAt_empty h) at 1.
  rewrite forEach_IngressToCanonical_sortedAt. unfold Mem.ret.
  by rewrite !(left_id_L ∅ (∪)).
Qed.

Lemma readUints_sortedAt (s : Mem.slice) (Sp Sr : gset Mem.addr) (h : Mem.store) :
  Mem.sliceAddr s ⊆ Sp ->
  Mem.readUints (Mem.sortedAt sort Sp Sr h) s
  = sort _ hasher.UintSlice_Less (Mem.readUints h s).
Proof.
  destruct s as [a|]; cbn [Mem.sliceAddr Mem.readUints Mem.sortedAt Mem.uints];
    intros HS; [|by rewrite (sort_nil sort sort_perm)].
  rewrite lookup_imap_total. destruct (Mem.uints h !! a) as [l|];
    cbn [fmap option_fmap option_map default].
  - by rewrite decide_True by set_solver.
  - by rewrite (sort_nil sort sort_perm).
Qed.

Lemma readRanges_sortedAt (s : Mem.slice) (Sp Sr : gset Mem.addr) (h : Mem.store) :
  Mem.sliceAddr s ⊆ Sr ->
  Mem.readRanges (Mem.sortedAt sort Sp Sr h) s
  = sort _ hasher.PortRangeSlice_Less (Mem.readRanges h s).
Proof.
  destruct s as [a|]; cbn [Mem.sliceAddr Mem.readRanges Mem.sortedAt Mem.ranges];
    intros HT; [|by rewrite (sort_nil sort sort_perm)].
  rewrite lookup_imap_total. destruct (Mem.ranges h !! a) as [l|];
    cbn [fmap option_fmap option_map default].
  - by rewrite decide_True by set_solver.
  - by rewrite (sort_nil sort sort_perm).
Qed.

Lemma readRule_sortedAt (r : Mem.Rule) (Sp Sr : gset Mem.addr) (h : Mem.store) :
  Mem.sliceAddr (Mem.Ports r) ⊆ Sp -> Mem.sliceAddr (Mem.PortRanges r) ⊆ Sr ->
  Mem.readRule (Mem.sortedAt sort Sp Sr h) r
  = hasher.RuleToCanonical sort (Mem.readRule h r).
Proof.
  intros HS HT. unfold Mem.readRule, hasher.RuleToCanonical.
  cbn [common.Ports common.PortRanges common.Protocol common.IcmpType
       common.IcmpCode common.IsStateful].
  by rewrite readUints_sortedAt, readRanges_sortedAt.
Qed.

Lemma readRules_sortedAt (rs : list Mem.Rule) (Sp Sr : gset Mem.addr) (h : Mem.store) :
  Mem.portAddrs rs ⊆ Sp -> Mem.rangeAddrs rs ⊆ Sr ->
  map (Mem.readRule (Mem.sortedAt sort Sp Sr h)) rs
  = map (hasher.RuleToCanonical sort) (map (Mem.readRule h) rs).
Proof.
  unfold Mem.portAddrs, Mem.rangeAddrs.
  induction rs as [|r rs IH]; cbn [map union_list foldr]; intros HS HT; [done|].
  rewrite readRule_sortedAt by set_solver. f_equal. apply IH; set_solver.
Qed.

(** The store-passing PolicyToCanonical computes, on the contents of the
    slices, what the value-level PolicyToCanonical computes. *)
Lemma PolicyToCanonical_refines (p : Mem.Policy) (h : Mem.store) :
  let (q, h') := Mem.PolicyToCanonical sort p h in
  Mem.readPolicy h' q = hasher.PolicyToCanonical sort (Mem.readPolicy h p).
Proof.
  rewrite PolicyToCanonical_run.
  unfold Mem.readPolicy, hasher.PolicyToCanonical.
  cbn [Mem.Direction Mem.Description Mem.Name Mem.ID Mem.ExternalID
       Mem.AppliedTo Mem.Ingress common.Direction common.Description
       common.Name common.ID common.ExternalID common.AppliedTo
       common.Ingress].
  f_equal. unfold Mem.policyPortAddrs, Mem.policyRangeAddrs.
  assert (forall Sp Sr,
    ⋃ map (fun i => Mem.portAddrs (Mem.Rules i)) (Mem.Ingress p) ⊆ Sp ->
    ⋃ map (fun i => Mem.rangeAddrs (Mem.Rules i)) (Mem.Ingress p) ⊆ Sr ->
    map (Mem.readIngress (Mem.sortedAt sort Sp Sr h))
        (map (Mem.ingressResult sort) (Mem.Ingress p))
    = map (hasher.IngressToCanonical sort)
          (map (Mem.readIngress h) (Mem.Ingress p))) as Hgen.
  { induction (Mem.Ingress p) as [|i ins IH]; cbn [map union_list foldr];
      intros Sp Sr HS HT; [done|].
    f_equal; [|apply IH; set_solver].
    unfold Mem.readIngress, hasher.IngressToCanonical, Mem.ingressResult.
    cbn [Mem.Peers Mem.Rules common.Peers common.Rules]. f_equal.
    apply readRules_sortedAt; set_solver. }
  by apply Hgen.
Qed.

(** An array no rule of the policy points to is left as it was. *)
Lemma PolicyToCanonical_frame (p : Mem.Policy) (h : Mem.store) (a : Mem.addr) :
  let h' := snd (Mem.PolicyToCanonical sort p h) in
  (a ∉ Mem.policyPortAddrs p -> Mem.uints h' !! a = Mem.uints h !! a) /\
  (a ∉ Mem.policyRangeAddrs p -> Mem.ranges h' !! a = Mem.ranges h !! a).
Proof.
  rewrite PolicyToCanonical_run. cbn [snd Mem.sortedAt Mem.uints Mem.ranges].
  split; intros Ha; rewrite lookup_imap_total;
    (destruct (_ !! a); cbn [fmap option_fmap option_map];
     [by rewrite decide_False|done]).
Qed.

End StoreFacts.

(** ** The chain lifecycle manager *)

Section ManagerFacts.
Import firewall.
Context {E : Type} {executor : Executor E}.

Lemma runs_ret {A : Type} (a : A) (e : E) : runs (ret a) e a [] e.
Proof. reflexivity. Qed.

Lemma runs_bind {A B : Type} (c : F E A) (k : A -> F E B) e a l1 e1 b l2 e2 :
  runs c e a l1 e1 -> runs (k a) e1 b l2 e2 ->
  runs (bind c k) e b (l1 ++ l2) e2.
Proof. unfold runs, bind. by intros -> ->. Qed.

Lemma runs_exec (c : Cmd) (e : E) :
  runs (exec c) e (fst (Exec c e)) [c] (snd (Exec c e)).
Proof. unfold runs, exec. by destruct (Exec c e). Qed.

Lemma runs_log {A : Type} (c : F E A) e a l l' e' :
  runs c e a l e' -> l = l' -> runs c e a l' e'.
Proof. by intros ? <-. Qed.

Lemma runs_executed {A : Type} (c : F E A) e a l e' :
  runs c e a l e' -> result c e = a /\ executed c e = l /\ after c e = e'.
Proof. unfold runs, result, executed, after. by intros ->. Qed.

(** *** A check that fails is followed by the install command *)

Lemma ensureChain_after_failed_list (chain : string) (e : E) :
  fails (ListChain chain) e ->
  executed (ensureChain chain) e = [ListChain chain; NewChain chain].
Proof.
  intros [msg Hmsg].
  eapply runs_executed, runs_log.
  - unfold ensureChain, isChainExist.
    eapply runs_bind; [eapply runs_bind; [apply runs_exec|apply runs_ret]|].
    cbv beta. rewrite Hmsg, bool_decide_false by done.
    eapply runs_bind; [apply runs_exec|apply runs_ret].
  - reflexivity.
Qed.

Lemma EnsureRule_after_failed_check (rule : string) (e : E) :
  fails (CheckRule rule) e ->
  executed (EnsureRule rule) e = [CheckRule rule; AppendRule false rule].
Proof.
  intros [msg Hmsg].
  eapply runs_executed, runs_log.
  - unfold EnsureRule, isRuleExist.
    eapply runs_bind; [eapply runs_bind; [apply runs_exec|apply runs_ret]|].
    cbv beta. rewrite Hmsg, bool_decide_false by done.
    eapply runs_bind; [apply runs_exec|apply runs_ret].
  - reflexivity.
Qed.

(** *** A host that reports the desired end-state *)

Variable I : E -> Prop.
Hypothesis present : reportsPresent I.

Lemma ensureChain_present (chain : string) (e : E) :
  I e ->
  exists e', runs (ensureChain chain) e [] [ListChain chain] e' /\ I e'.
Proof.
  intros He. destruct (present (ListChain chain) e He) as [HI Hq].
  exists (snd (Exec (ListChain chain) e)). split; [|done].
  eapply runs_log.
  - unfold ensureChain, isChainExist.
    eapply runs_bind; [eapply runs_bind; [apply runs_exec|apply runs_ret]|].
    cbv beta. rewrite Hq, bool_decide_true by done. apply runs_ret.
  - reflexivity.
Qed.

Lemma EnsureRule_present (rule : string) (e : E) :
  I e ->
  exists e', runs (EnsureRule rule) e [] [CheckRule rule] e' /\ I e'.
Proof.
  intros He. destruct (present (CheckRule rule) e He) as [HI Hq].
  exists (snd (Exec (CheckRule rule) e)). split; [|done].
  eapply runs_log.
  - unfold EnsureRule, isRuleExist.
    eapply runs_bind; [eapply runs_bind; [apply runs_exec|apply runs_ret]|].
    cbv beta. rewrite Hq, bool_decide_true by done. apply runs_ret.
  - reflexivity.
Qed.

Lemma CreateRules_present (rules : list string) (e : E) :
  I e ->
  exists e', runs (forEach EnsureRule rules) e [] (map CheckRule rules) e' /\ I e'.
Proof.
  revert e. induction rules as [|r rules IH]; intros e He; simpl.
  - exists e. split; [apply runs_ret|done].
  - destruct (EnsureRule_present r e He) as (e1 & H1 & He1).
    destruct (IH e1 He1) as (e2 & H2 & He2).
    exists e2. split; [|done].
    eapply runs_log.
    + eapply runs_bind; [exact H1|].
      eapply runs_bind; [exact H2|apply runs_ret].
    + simpl. by rewrite app_nil_r.
Qed.

Lemma ensureSteps_present (fw : IPtables) (chain : IPtablesChain) (e : E) :
  I e ->
  exists e', runs (ensureSteps fw chain) e [] (ensureQueries fw chain) e' /\ I e'.
Proof.
  intros He.
  destruct (ensureChain_present (ChainName chain) e He) as (e1 & H1 & He1).
  destruct (EnsureRule_present (divertRule fw chain) e1 He1) as (e2 & H2 & He2).
  destruct (EnsureRule_present (ChainName chain +:+ " -j " +:+ defaultTarget fw)
              e2 He2) as (e3 & H3 & He3).
  destruct (CreateRules_present (ChainRules chain) e3 He3) as (e4 & H4 & He4).
  exists e4. split; [|done].
  eapply runs_log.
  - unfold ensureSteps.
    eapply runs_bind; [exact H1|].
    eapply runs_bind; [exact H2|].
    eapply runs_bind; [exact H3|].
    eapply runs_bind; [exact H4|apply runs_ret].
  - unfold ensureQueries. simpl. by rewrite app_nil_r.
Qed.

Lemma provisionChain_present (fw : IPtables) (chain : IPtablesChain) (e : E) :
  I e ->
  exists errs e',
    runs (provisionChain fw chain) e errs
         (ensureQueries fw chain ++ [AppendRule true (u32Rule fw chain)]) e' /\ I e'.
Proof.
  intros He.
  destruct (ensureSteps_present fw chain e He) as (e1 & H1 & He1).
  destruct (present (AppendRule true (u32Rule fw chain)) e1 He1) as [He2 _].
  eexists _, _. split; [|exact He2].
  eapply runs_log.
  - unfold provisionChain, CreateU32Rules.
    eapply runs_bind; [exact H1|].
    eapply runs_bind; [|apply runs_ret].
    eapply runs_bind; [apply runs_exec|apply runs_ret].
  - by rewrite !app_nil_r.
Qed.

Lemma Reconcile_present (fw : IPtables) (cs : list IPtablesChain) (e : E) :
  I e ->
  exists errs e',
    runs (forEach (provisionChain fw) cs) e errs
         (concat (map (fun chain => ensureQueries fw chain
                                    ++ [AppendRule true (u32Rule fw chain)]) cs)) e'
    /\ I e'.
Proof.
  revert e. induction cs as [|chain cs IH]; intros e He; simpl.
  - exists [], e. split; [apply runs_ret|done].
  - destruct (provisionChain_present fw chain e He) as (errs1 & e1 & H1 & He1).
    destruct (IH e1 He1) as (errs2 & e2 & H2 & He2).
    eexists _, e2. split; [|done].
    eapply runs_log.
    + eapply runs_bind; [exact H1|].
      eapply runs_bind; [exact H2|apply runs_ret].
    + by rewrite app_nil_r.
Qed.

Lemma ensureQueries_are_queries (fw : IPtables) (chain : IPtablesChain) :
  Forall (fun c => isQuery c = true) (ensureQueries fw chain).
Proof.
  unfold ensureQueries. apply Forall_app. split; [repeat constructor|].
  apply Forall_forall. intros c Hc.
  by apply list_elem_of_In, in_map_iff in Hc as (r & <- & _).
Qed.

End ManagerFacts.

(** C7. deleteIPtablesRulesBySubstring called with the empty string returns
    a ValidationError and performs no deletion: no command is executed and
    the collaborator is left as it was. *)
Theorem deleteIPtablesRulesBySubstring_rejects_empty
    {E : Type} {executor : firewall.Executor E} (e : E) :
  (exists msg, firewall.result (firewall.deleteIPtablesRulesBySubstring "") e
               = [firewall.ValidationError msg]) /\
  firewall.executed (firewall.deleteIPtablesRulesBySubstring "") e = [] /\
  firewall.after (firewall.deleteIPtablesRulesBySubstring "") e = e.
Proof. split_and!; [by eexists|reflexivity|reflexivity]. Qed.

(** Without the guard the empty substring would select every rule. *)
Lemma contains_empty (line : string) : firewall.contains "" line = true.
Proof. unfold firewall.contains. by destruct line. Qed.

(** A substring that is not empty deletes the rules it occurs in. *)
Example deleteIPtablesRulesBySubstring_pol1 :
  firewall.executed (firewall.deleteIPtablesRulesBySubstring "pol1")
                    sample.listingExecutor
  = [firewall.SaveRules;
     firewall.DeleteRule "ROMANA-INPUT -m comment --comment pol1 -j ACCEPT";
     firewall.DeleteRule "ROMANA-FORWARD-IN -m comment --comment pol1 -j DROP"].
Proof. reflexivity. Qed.

(** C8. When the existence check of an ensure operation fails, the install
    command follows: a chain whose listing fails is created, a rule whose
    check fails is appended; for the traffic-diversion step, the failed -C
    of the diversion rule is followed by the -A of the same rule, and
    nothing else is executed. *)
Theorem ensure_installs_after_failed_check
    {E : Type} {executor : firewall.Executor E}
    (fw : firewall.IPtables) (chain : firewall.IPtablesChain) (e : E) :
  firewall.fails (firewall.CheckRule (firewall.divertRule fw chain)) e ->
  firewall.executed (firewall.DivertTrafficToRomanaIPtablesChain fw chain) e
  = [firewall.CheckRule (firewall.divertRule fw chain);
     firewall.AppendRule false (firewall.divertRule fw chain)] /\
  (forall rule e', firewall.fails (firewall.CheckRule rule) e' ->
     firewall.executed (firewall.EnsureRule rule) e'
     = [firewall.CheckRule rule; firewall.AppendRule false rule]) /\
  (forall name e', firewall.fails (firewall.ListChain name) e' ->
     firewall.executed (firewall.ensureChain name) e'
     = [firewall.ListChain name; firewall.NewChain name]).
Proof.
  intros Hfail. split_and!.
  - by apply EnsureRule_after_failed_check.
  - intros rule e'. apply EnsureRule_after_failed_check.
  - intros name e'. apply ensureChain_after_failed_list.
Qed.

(** TestDivertTraffic: the executor answers "Rule not found". *)
Lemma ensure_installs_after_failed_check_witness :
  firewall.fails
    (firewall.CheckRule (firewall.divertRule sample.testFirewall sample.inputChain))
    sample.failingExecutor /\
  map firewall.render
    (firewall.executed
       (firewall.DivertTrafficToRomanaIPtablesChain sample.testFirewall sample.inputChain)
       sample.failingExecutor)
  = ["/sbin/iptables -w -C INPUT -i eth0 -j ROMANA-INPUT";
     "/sbin/iptables -A INPUT -i eth0 -j ROMANA-INPUT"].
Proof.
  assert (firewall.fails
            (firewall.CheckRule (firewall.divertRule sample.testFirewall sample.inputChain))
            sample.failingExecutor) as H by (by eexists).
  split; [exact H|].
  destruct (ensure_installs_after_failed_check
              sample.testFirewall sample.inputChain sample.failingExecutor H)
    as [-> _].
  reflexivity.
Defined.


Lemma quiet_reportsPresent :
  firewall.reportsPresent (fun e : firewall.FakeExecutor => firewall.Error_ e = None).
Proof. intros c e He. split; [exact He|intros _; exact He]. Qed.



(** ** The expectations of the firewall tests *)

(** TestCreateChains: every chain is listed and none is created. *)
Example TestCreateChains :
  firewall.Commands
    (firewall.after (firewall.CreateChains (firewall.chains sample.testFirewall))
                    sample.quietExecutor)
  = ["/sbin/iptables -w -L ROMANA-INPUT";
     "/sbin/iptables -w -L ROMANA-FORWARD-IN";
     "/sbin/iptables -w -L ROMANA-FORWARD-OUT";
     "/sbin/iptables -w -L ROMANA-FORWARD-IN"].
Proof. reflexivity. Qed.

(** TestDivertTraffic. *)
Example TestDivertTraffic :
  firewall.Commands
    (firewall.after
       (firewall.DivertTrafficToRomanaIPtablesChain sample.testFirewall sample.inputChain)
       sample.failingExecutor)
  = ["/sbin/iptables -w -C INPUT -i eth0 -j ROMANA-INPUT";
     "/sbin/iptables -A INPUT -i eth0 -j ROMANA-INPUT"].
Proof. reflexivity. Qed.

(** TestCreateDefaultRules. *)
Example TestCreateDefaultRules :
  firewall.Commands
    (firewall.after (firewall.CreateDefaultRule sample.inputChain "DROP")
                    sample.quietExecutor)
  = ["/sbin/iptables -w -C ROMANA-INPUT -j DROP"] /\
  firewall.Commands
    (firewall.after (firewall.CreateDefaultRule sample.inputChain "ACCEPT")
                    sample.quietExecutor)
  = ["/sbin/iptables -w -C ROMANA-INPUT -j ACCEPT"].
Proof. split; reflexivity. Qed.

(** TestCreateRules. *)
Example TestCreateRules :
  firewall.Commands
    (firewall.after (firewall.CreateRules sample.inputChain) sample.quietExecutor)
  = ["/sbin/iptables -w -C ROMANA-INPUT -d 255.255.255.255/32 -p udp -m udp --sport 68 --dport 67 -j ACCEPT"].
Proof. reflexivity. Qed.

(** TestCreateU32Rules. *)
Example TestCreateU32Rules :
  firewall.Commands
    (firewall.after (firewall.CreateU32Rules sample.testFirewall sample.inputChain)
                    sample.quietExecutor)
  = ["/sbin/iptables -w -A ROMANA-INPUT -m u32 --u32 12&0xFF00FF00=0x7F000000&&16&0xFF00FF00=0x7F000000 -j ACCEPT"].
Proof. reflexivity. Qed.

(** * Further properties of the canonical form *)

Lemma ascending_impl {A : Type} (less : A -> A -> bool) (P : A -> Prop)
    (R : relation A) (l : list A) :
  (forall x y, P x -> P y -> less y x = false -> R x y) ->
  Forall P l -> ascending less l -> StronglySorted R l.
Proof.
  intros HR HP Hs. unfold ascending in Hs.
  induction Hs as [|x l Hl IH Hx]; [constructor|].
  apply Forall_cons in HP as [Px Pl]. constructor; [by apply IH|].
  apply Forall_forall. intros y Hy.
  apply HR; [done| |].
  - by apply (proj1 (Forall_forall _ _) Pl).
  - by apply (proj1 (Forall_forall _ _) Hx).
Qed.

Lemma StronglySorted_map_on {A B : Type} (f : A -> B) (R1 : relation A)
    (R2 : relation B) (l : list A) :
  (forall x y, x ∈ l -> y ∈ l -> R1 x y -> R2 (f x) (f y)) ->
  StronglySorted R1 l -> StronglySorted R2 (map f l).
Proof.
  intros HR Hs. revert HR.
  induction Hs as [|x l Hl IH Hx]; intros HR; simpl; [constructor|].
  constructor.
  - apply IH. intros a b Ha Hb. apply HR; by right.
  - apply Forall_forall. intros y Hy.
    apply list_elem_of_In, in_map_iff in Hy as (a & <- & Ha).
    apply list_elem_of_In in Ha. apply HR; [by left|by right|].
    by apply (proj1 (Forall_forall _ _) Hx).
Qed.

(** X1. The Ports of a canonical rule are in ascending numeric order. *)
Theorem RuleToCanonical_Ports_ascending (sort : sorter) (r : common.Rule) :
  sort_ascends sort ->
  StronglySorted N.le (common.Ports (hasher.RuleToCanonical sort r)).
Proof.
  intros Hasc. simpl.
  apply (ascending_impl hasher.UintSlice_Less (fun _ => True)).
  - intros x y _ _. unfold hasher.UintSlice_Less. rewrite N.ltb_ge. lia.
  - by apply Forall_forall.
  - apply Hasc, UintSlice_Less_StrictWeak.
Qed.

Lemma RuleToCanonical_Ports_ascending_witness :
  sort_ascends insertionSort /\
  StronglySorted N.le
    (common.Ports (hasher.RuleToCanonical insertionSort sample.tcpRule)).
Proof.
  split; [exact insertionSort_ascends|].
  exact (RuleToCanonical_Ports_ascending insertionSort sample.tcpRule
           insertionSort_ascends).
Defined.

Lemma rangeKey_le_wellFormed (p q : common.PortRange) :
  relate.wellFormedRange p -> relate.wellFormedRange q ->
  hasher.rangeKey p <= hasher.rangeKey q <-> shape.widerFirst p q.
Proof.
  intros Hp Hq.
  rewrite (rangeKey_wellFormed p Hp), (rangeKey_wellFormed q Hq).
  destruct p as [lo hi], q as [lo' hi'].
  unfold relate.wellFormedRange, shape.widerFirst, relate.width in *.
  cbn [fst snd] in *.
  set (m := Go.uint_mod) in *.
  assert (0 < m) as Hm by (vm_compute; reflexivity).
  destruct (N.eq_dec (hi - lo) 0) as [E|E];
    destruct (N.eq_dec (hi' - lo') 0) as [E'|E'].
  - rewrite E, E'. rewrite N.sub_0_r. split; [by left|lia].
  - rewrite E, N.sub_0_r, N.Div0.mod_same.
    split; [by left|intros _; apply N.le_0_l].
  - rewrite E', N.sub_0_r, N.Div0.mod_same, N.mod_small by lia.
    split; [lia|]. intros [H|[H _]]; lia.
  - rewrite !N.mod_small by lia. split; [intros H; right; lia|].
    intros [H|[H1 H2]]; lia.
Qed.

(** X3. On ranges with [low <= high], PortRangeSlice.Less puts a range of
    one port before every proper range and, among proper ranges, the
    wider before the narrower. *)
Theorem PortRangeSlice_Less_wider_first (p q : common.PortRange) :
  relate.wellFormedRange p -> relate.wellFormedRange q ->
  hasher.PortRangeSlice_Less p q = true <->
  (relate.width p = 0 /\ 0 < relate.width q) \/
  (0 < relate.width q /\ relate.width q < relate.width p).
Proof.
  intros Hp Hq. unfold hasher.PortRangeSlice_Less.
  rewrite N.ltb_lt, N.lt_nge, (rangeKey_le_wellFormed q p Hq Hp).
  unfold shape.widerFirst. lia.
Qed.

Lemma PortRangeSlice_Less_wider_first_witness :
  (relate.wellFormedRange (5, 5) /\ relate.wellFormedRange (1, 3)) /\
  (hasher.PortRangeSlice_Less (5, 5) (1, 3) = true <->
   (relate.width (5, 5) = 0 /\ 0 < relate.width (1, 3)) \/
   (0 < relate.width (1, 3) /\ relate.width (1, 3) < relate.width (5, 5))).
Proof.
  assert (relate.wellFormedRange (5, 5)) as H1 by (vm_compute; done).
  assert (relate.wellFormedRange (1, 3)) as H2 by (vm_compute; done).
  split; [exact (conj H1 H2)|].
  exact (PortRangeSlice_Less_wider_first (5, 5) (1, 3) H1 H2).
Defined.

(** X2. In a canonical rule whose ranges have [low <= high], the ranges of
    one port come first and the proper ranges follow from the widest to
    the narrowest. *)
Theorem RuleToCanonical_PortRanges_wider_first (sort : sorter) (r : common.Rule) :
  sort_permutes sort -> sort_ascends sort ->
  Forall relate.wellFormedRange (common.PortRanges r) ->
  StronglySorted shape.widerFirst
    (common.PortRanges (hasher.RuleToCanonical sort r)).
Proof.
  intros Hperm Hasc Hwf. simpl.
  apply (ascending_impl hasher.PortRangeSlice_Less relate.wellFormedRange).
  - intros p q Hp Hq. unfold hasher.PortRangeSlice_Less. rewrite N.ltb_ge.
    by apply rangeKey_le_wellFormed.
  - by rewrite (Hperm _ _ _).
  - apply Hasc, PortRangeSlice_Less_StrictWeak.
Qed.

Lemma RuleToCanonical_PortRanges_wider_first_witness :
  (sort_permutes insertionSort /\ sort_ascends insertionSort /\
   Forall relate.wellFormedRange
     (common.PortRanges (sample.rangeRule [(1000, 2000); (53, 53); (80, 90)]))) /\
  StronglySorted shape.widerFirst
    (common.PortRanges
       (hasher.RuleToCanonical insertionSort
          (sample.rangeRule [(1000, 2000); (53, 53); (80, 90)]))).
Proof.
  assert (Forall relate.wellFormedRange
            (common.PortRanges (sample.rangeRule [(1000, 2000); (53, 53); (80, 90)])))
    as Hwf by (repeat constructor; vm_compute; done).
  split; [exact (conj insertionSort_permutes (conj insertionSort_ascends Hwf))|].
  exact (RuleToCanonical_PortRanges_wider_first insertionSort _
           insertionSort_permutes insertionSort_ascends Hwf).
Defined.

Lemma sortEndpoints_keysAscending (sort : sorter) (l : list common.Endpoint) :
  sort_permutes sort -> sort_ascends sort ->
  shape.keysAscending (hasher.sortEndpoints sort l).
Proof.
  intros Hperm Hasc.
  unfold shape.keysAscending, hasher.sortEndpoints, hasher.EndpointList_List,
    hasher.EndpointList_Sort.
  apply (StronglySorted_map_on hasher.endpoint (notAfter hasher.EndpointList_Less)).
  - intros x y Hx Hy Hxy. rewrite (Hperm _ _ _) in Hx, Hy.
    apply list_elem_of_In, in_map_iff in Hx as (ex & <- & _).
    apply list_elem_of_In, in_map_iff in Hy as (ey & <- & _).
    by apply string_ltb_false in Hxy.
  - apply Hasc, EndpointList_Less_StrictWeak.
Qed.

(** X4. In a canonical policy the AppliedTo endpoints and the Peers of
    every Ingress entry are in the order of their keys. *)
Theorem PolicyToCanonical_endpoints_ascending (sort : sorter) (p : common.Policy) :
  sort_permutes sort -> sort_ascends sort ->
  shape.endpointsAscending (hasher.PolicyToCanonical sort p).
Proof.
  intros Hperm Hasc. split; simpl.
  - by apply sortEndpoints_keysAscending.
  - apply Forall_forall. intros i Hi.
    apply list_elem_of_In, in_map_iff in Hi as (i0 & <- & _). simpl.
    by apply sortEndpoints_keysAscending.
Qed.

Lemma PolicyToCanonical_endpoints_ascending_witness :
  (sort_permutes insertionSort /\ sort_ascends insertionSort) /\
  shape.endpointsAscending (hasher.PolicyToCanonical insertionSort sample.policy1').
Proof.
  split; [exact (conj insertionSort_permutes insertionSort_ascends)|].
  exact (PolicyToCanonical_endpoints_ascending insertionSort sample.policy1'
           insertionSort_permutes insertionSort_ascends).
Defined.

(** ** Canonical strings and the canonical order of rules *)

Lemma string_app_assoc (a b c : string) : (a +:+ b) +:+ c = a +:+ (b +:+ c).
Proof.
  induction a as [|x a IH]; [reflexivity|].
  change (String x ((a +:+ b) +:+ c) = String x (a +:+ (b +:+ c))).
  by rewrite IH.
Qed.

Lemma RuleToString_of_canonical_aux (sort : sorter) :
  sort_ascends sort -> sort_keeps_sorted sort ->
  forall r, hasher.RuleToString sort (hasher.RuleToCanonical sort r)
            = hasher.RuleToString sort r.
Proof.
  intros Hasc Hkeep r. unfold hasher.RuleToString.
  by rewrite (RuleToCanonical_idempotent sort Hasc Hkeep).
Qed.



(** X6. The canonical string of a rule does not depend on the order of
    its Ports, nor on the order of its PortRanges when no two different
    ranges have the same [low - high]. *)
Theorem RuleToString_order_independent (sort : sorter) (r r' : common.Rule) :
  sort_permutes sort -> sort_ascends sort ->
  relate.differencesIdentify (common.PortRanges r) ->
  relate.ruleContent r r' ->
  hasher.RuleToString sort r' = hasher.RuleToString sort r.
Proof.
  intros Hperm Hasc Hd Hc. unfold hasher.RuleToString.
  rewrite (RuleToCanonical_of_content sort r r' Hperm Hasc Hd Hc).
  destruct Hc as (-> & _). reflexivity.
Qed.

Lemma RuleToString_order_independent_witness :
  (sort_permutes insertionSort /\ sort_ascends insertionSort /\
   relate.differencesIdentify (common.PortRanges sample.tcpRule) /\
   relate.ruleContent sample.tcpRule
     {| common.Protocol := "TCP"; common.Ports := [8080; 99; 80];
        common.PortRanges := []; common.IcmpType := 0; common.IcmpCode := 0;
        common.IsStateful := false |}) /\
  hasher.RuleToString insertionSort
     {| common.Protocol := "TCP"; common.Ports := [8080; 99; 80];
        common.PortRanges := []; common.IcmpType := 0; common.IcmpCode := 0;
        common.IsStateful := false |}
  = hasher.RuleToString insertionSort sample.tcpRule.
Proof.
  assert (relate.differencesIdentify (common.PortRanges sample.tcpRule)) as Hd
    by no_ties.
  assert (relate.ruleContent sample.tcpRule
     {| common.Protocol := "TCP"; common.Ports := [8080; 99; 80];
        common.PortRanges := []; common.IcmpType := 0; common.IcmpCode := 0;
        common.IsStateful := false |}) as Hc.
  { unfold relate.ruleContent. simpl. split_and!; try done.
    change [8080; 99; 80] with ([8080] ++ [99; 80]).
    change [99; 80; 8080] with ([99; 80] ++ [8080]).
    apply Permutation_app_comm. }
  split; [exact (conj insertionSort_permutes (conj insertionSort_ascends (conj Hd Hc)))|].
  exact (RuleToString_order_independent insertionSort _ _
           insertionSort_permutes insertionSort_ascends Hd Hc).
Defined.

Lemma sort_singleton (sort : sorter) {A : Type} (less : A -> A -> bool) (x : A) :
  sort_permutes sort -> sort A less [x] = [x].
Proof. intros Hperm. apply Permutation_singleton_r, Hperm. Qed.

(** X10. The canonical string does not tell a port from the end of the
    protocol: a rule with the one port [port] and the rule without ports
    whose protocol is followed by the digits of [port] have the same
    string. *)
Theorem RuleToString_port_or_protocol (sort : sorter) (proto : string) (port : N)
    (r : common.Rule) :
  sort_permutes sort ->
  hasher.RuleToString sort (shape.portInProtocol proto port r)
  = hasher.RuleToString sort (shape.portInPorts proto port r).
Proof.
  intros Hperm. unfold hasher.RuleToString, hasher.RuleToCanonical. simpl.
  rewrite (sort_nil sort Hperm), (sort_singleton sort _ _ Hperm). simpl.
  by rewrite !string_app_assoc.
Qed.

Lemma RuleToString_port_or_protocol_witness :
  sort_permutes insertionSort /\
  hasher.RuleToString insertionSort (shape.portInProtocol "TCP" 80 sample.tcpRule)
  = hasher.RuleToString insertionSort (shape.portInPorts "TCP" 80 sample.tcpRule).
Proof.
  split; [exact insertionSort_permutes|].
  exact (RuleToString_port_or_protocol insertionSort "TCP" 80 sample.tcpRule
           insertionSort_permutes).
Defined.

Lemma RuleSlice_Less_StrictWeak (sort : sorter) :
  StrictWeak (hasher.RuleSlice_Less sort).
Proof. apply (StrictWeak_string_key (hasher.RuleToString sort)). Qed.







(** ** PolicyToCanonical and the store *)





Lemma readIngress_sortedAt (sort : sorter) (ins : list Mem.RomanaIngress)
    (Sp Sr : gset Mem.addr) (h : Mem.store) :
  sort_permutes sort -> sort_ascends sort -> sort_keeps_sorted sort ->
  ⋃ map (fun i => Mem.portAddrs (Mem.Rules i)) ins ⊆ Sp ->
  ⋃ map (fun i => Mem.rangeAddrs (Mem.Rules i)) ins ⊆ Sr ->
  map (Mem.readIngress (Mem.sortedAt sort Sp Sr h)) ins
  = map (fun i => {| common.Peers := common.Peers i;
                     common.Rules := map (hasher.RuleToCanonical sort) (common.Rules i) |})
        (map (Mem.readIngress h) ins).
Proof.
  intros Hperm Hasc Hkeep.
  induction ins as [|i ins IH]; cbn [map union_list foldr]; intros HS HT; [done|].
  f_equal; [|apply IH; set_solver].
  unfold Mem.readIngress. cbn [common.Peers common.Rules]. f_equal.
  apply (readRules_sortedAt sort Hperm Hasc Hkeep); set_solver.
Qed.



Lemma imap_sort_twice (sort : sorter) {A : Type} (less : A -> A -> bool)
    (Sp : gset Mem.addr) (m : gmap Mem.addr (list A)) :
  sort_ascends sort -> sort_keeps_sorted sort -> StrictWeak less ->
  map_imap (fun b l => Some (if decide (b ∈ Sp) then sort A less l else l))
    (map_imap (fun b l => Some (if decide (b ∈ Sp) then sort A less l else l)) m)
  = map_imap (fun b l => Some (if decide (b ∈ Sp) then sort A less l else l)) m.
Proof.
  intros Hasc Hkeep SW. apply map_eq. intros b.
  rewrite !lookup_imap_total, <-option_fmap_compose.
  apply option_fmap_ext. intros l. unfold compose.
  destruct (decide (b ∈ Sp)); [|done].
  by apply (sort_idempotent sort Hasc Hkeep).
Qed.

Lemma ingressResult_addrs (sort : sorter) (ins : list Mem.RomanaIngress) :
  map (fun i => Mem.portAddrs (Mem.Rules i)) (map (Mem.ingressResult sort) ins)
  = map (fun i => Mem.portAddrs (Mem.Rules i)) ins /\
  map (fun i => Mem.rangeAddrs (Mem.Rules i)) (map (Mem.ingressResult sort) ins)
  = map (fun i => Mem.rangeAddrs (Mem.Rules i)) ins.
Proof. by rewrite !map_map. Qed.



(** * The address allocator and the kubernetes listener *)

(** ** getEffectiveNetworkID *)

Lemma uint64_shl1_small (stride : N) :
  stride < 64 -> ipam.uint64_shl1 stride = 2 ^ stride.
Proof.
  intros H. unfold ipam.uint64_shl1. rewrite N.shiftl_1_l.
  apply N.mod_small. unfold Go.uint_mod, Go.uint_bits.
  apply N.pow_lt_mono_r; lia.
Qed.

Lemma getEffectiveNetworkID_exact (id stride : N) :
  3 + 2 ^ stride * id < Go.uint_mod -> 0 < id ->
  ipam.getEffectiveNetworkID id stride = 3 + 2 ^ stride * id.
Proof.
  intros Hfit Hid.
  assert (stride < 64) as Hs.
  { apply N.lt_nge. intros Hge.
    assert (2 ^ 64 <= 2 ^ stride) as Hpow by (apply N.pow_le_mono_r; lia).
    unfold Go.uint_mod, Go.uint_bits in Hfit. nia. }
  unfold ipam.getEffectiveNetworkID. rewrite (uint64_shl1_small stride Hs).
  rewrite (N.mod_small (2 ^ stride * id)) by lia.
  apply N.mod_small. lia.
Qed.

(** X15. While [3 + 2^stride * id] fits in 64 bits, effective network IDs
    start at 3 and grow with the network ID in steps of [2^stride]:
    different network IDs get different effective IDs, none of them 0, 1
    or 2. *)
Theorem getEffectiveNetworkID_spaced (id1 id2 stride : N) :
  id1 < id2 -> 3 + 2 ^ stride * id2 < Go.uint_mod ->
  3 <= ipam.getEffectiveNetworkID id1 stride /\
  ipam.getEffectiveNetworkID id1 stride + 2 ^ stride
  <= ipam.getEffectiveNetworkID id2 stride.
Proof.
  intros Hlt Hfit.
  rewrite (getEffectiveNetworkID_exact id2 stride) by lia.
  destruct (N.eq_dec id1 0) as [->|Hne].
  - assert (ipam.getEffectiveNetworkID 0 stride = 3) as ->.
    { unfold ipam.getEffectiveNetworkID. rewrite N.mul_0_r. reflexivity. }
    nia.
  - rewrite (getEffectiveNetworkID_exact id1 stride) by nia. nia.
Qed.

Lemma getEffectiveNetworkID_spaced_witness :
  (1 < 2 /\ 3 + 2 ^ 4 * 2 < Go.uint_mod) /\
  3 <= ipam.getEffectiveNetworkID 1 4 /\
  ipam.getEffectiveNetworkID 1 4 + 2 ^ 4 <= ipam.getEffectiveNetworkID 2 4.
Proof.
  assert (1 < 2) as H1 by lia.
  assert (3 + 2 ^ 4 * 2 < Go.uint_mod) as H2 by (vm_compute; reflexivity).
  split; [exact (conj H1 H2)|].
  exact (getEffectiveNetworkID_spaced 1 2 4 H1 H2).
Defined.

(** X16. With a stride of 64 bits or more the shift gives zero, and every
    network ID gets the effective ID 3. *)
Theorem getEffectiveNetworkID_large_stride (id stride : N) :
  64 <= stride -> ipam.getEffectiveNetworkID id stride = 3.
Proof.
  intros Hs. unfold ipam.getEffectiveNetworkID.
  assert (ipam.uint64_shl1 stride = 0) as ->; [|reflexivity].
  unfold ipam.uint64_shl1. rewrite N.shiftl_1_l.
  replace stride with (64 + (stride - 64)) by lia.
  rewrite N.pow_add_r. unfold Go.uint_mod, Go.uint_bits.
  rewrite N.mul_comm. apply N.Div0.mod_mul.
Qed.

Lemma getEffectiveNetworkID_large_stride_witness :
  64 <= 64 /\ ipam.getEffectiveNetworkID 5 64 = 3.
Proof.
  assert (64 <= 64) as H by lia.
  split; [exact H|]. exact (getEffectiveNetworkID_large_stride 5 64 H).
Defined.

(** ** makeId *)

Lemma string_cons_app (c : ascii) (a b : string) :
  String c a +:+ b = String c (a +:+ b).
Proof. reflexivity. Qed.

Lemma slash_separates (a b x y : string) :
  kubernetes.noSlash a = true -> kubernetes.noSlash b = true ->
  (a +:+ "/") +:+ x = (b +:+ "/") +:+ y -> a = b /\ x = y.
Proof.
  revert b. induction a as [|c a IH]; intros [|d b] Ha Hb H.
  - change (String "/" x = String "/" y) in H. by injection H as ->.
  - change (String "/" x = String d ((b +:+ "/") +:+ y)) in H.
    injection H as <- _. by cbn in Hb.
  - change (String c ((a +:+ "/") +:+ x) = String "/" y) in H.
    injection H as -> _. by cbn in Ha.
  - change (String c ((a +:+ "/") +:+ x) = String d ((b +:+ "/") +:+ y)) in H.
    injection H as <- Hrest.
    cbn in Ha, Hb. apply andb_prop in Ha as [_ Ha]. apply andb_prop in Hb as [_ Hb].
    destruct (IH b Ha Hb Hrest) as [-> ->]. done.
Qed.

(** X17. makeId identifies an object by name and namespace when names have
    no slash: two objects with the same id have the same name and the
    same namespace. *)
Theorem makeId_identifies (o1 o2 : kubernetes.KubeObject) :
  kubernetes.noSlash (kubernetes.Name (kubernetes.ObjMetadata o1)) = true ->
  kubernetes.noSlash (kubernetes.Name (kubernetes.ObjMetadata o2)) = true ->
  kubernetes.makeId o1 = kubernetes.makeId o2 ->
  kubernetes.Name (kubernetes.ObjMetadata o1) = kubernetes.Name (kubernetes.ObjMetadata o2) /\
  kubernetes.Namespace (kubernetes.ObjMetadata o1)
  = kubernetes.Namespace (kubernetes.ObjMetadata o2).
Proof. intros H1 H2 H. by apply slash_separates. Qed.

Lemma makeId_identifies_witness :
  (kubernetes.noSlash
     (kubernetes.Name (kubernetes.ObjMetadata (kubesample.kubeObject "web" "default"))) = true /\
   kubernetes.noSlash
     (kubernetes.Name (kubernetes.ObjMetadata (kubesample.namespaceObject "web" "default")))
   = true /\
   kubernetes.makeId (kubesample.kubeObject "web" "default")
   = kubernetes.makeId (kubesample.namespaceObject "web" "default")) /\
  kubernetes.Name (kubernetes.ObjMetadata (kubesample.kubeObject "web" "default"))
  = kubernetes.Name (kubernetes.ObjMetadata (kubesample.namespaceObject "web" "default")) /\
  kubernetes.Namespace (kubernetes.ObjMetadata (kubesample.kubeObject "web" "default"))
  = kubernetes.Namespace (kubernetes.ObjMetadata (kubesample.namespaceObject "web" "default")).
Proof.
  split; [split_and!; reflexivity|].
  exact (makeId_identifies (kubesample.kubeObject "web" "default")
           (kubesample.namespaceObject "web" "default") eq_refl eq_refl eq_refl).
Defined.

(** With a slash in a name the id is ambiguous. *)
Example makeId_with_slash :
  kubernetes.makeId (kubesample.kubeObject "a/b" "c")
  = kubernetes.makeId (kubesample.kubeObject "a" "b/c").
Proof. reflexivity. Qed.

(** ** syncNetworkPolicies *)

Section SyncFacts.
Context {NetworkPolicy : Type}.
Variable metaNamespace : NetworkPolicy -> string.
Variable metaName : NetworkPolicy -> string.

Local Abbreviation fullName := (kubernetes.fullPolicyName metaNamespace metaName).
Local Abbreviation added :=
  (fun k : NetworkPolicy =>
     {| kubernetes.EvType := kubernetes.KubeEventAdded;
        kubernetes.EvObject := kubernetes.ObjNetworkPolicy k |}).

Lemma findPolicy_None (full : string) (pn : nat) (ps : list common.Policy) :
  kubernetes.findPolicy full pn ps = None <-> full ∉ map common.Name ps.
Proof.
  revert pn. induction ps as [|p ps IH]; intros pn; simpl.
  - split; [intros _; apply not_elem_of_nil|done].
  - destruct (String.eqb_spec full (common.Name p)) as [->|Hne].
    + split; [done|]. intros H. exfalso. apply H. by left.
    + rewrite IH, not_elem_of_cons. split; [by intros ?|by intros [_ ?]].
Qed.

Lemma findPolicy_Some (full : string) (pn k : nat) (ps : list common.Policy) :
  kubernetes.findPolicy full pn ps = Some k ->
  exists j p, k = (pn + j)%nat /\ ps !! j = Some p /\ common.Name p = full /\
    forall i q, (i < j)%nat -> ps !! i = Some q -> common.Name q <> full.
Proof.
  revert pn. induction ps as [|p ps IH]; intros pn; simpl; [done|].
  destruct (String.eqb_spec full (common.Name p)) as [->|Hne].
  - intros [= <-]. exists 0%nat, p. split_and!; [lia|done|done|lia].
  - intros (j & q & -> & Hj & Hq & Hmin)%IH.
    exists (S j), q. split_and!; [lia|done|done|].
    intros [|i] r Hi Hr; simpl in Hr; [by injection Hr as <-|].
    apply (Hmin i); [lia|done].
Qed.

Lemma findPolicy_unique (pn j : nat) (p : common.Policy) (ps : list common.Policy) :
  NoDup (map common.Name ps) -> ps !! j = Some p ->
  kubernetes.findPolicy (common.Name p) pn ps = Some (pn + j)%nat.
Proof.
  revert pn j. induction ps as [|q ps IH]; intros pn j Hnd Hj; [done|].
  simpl in Hnd. apply NoDup_cons in Hnd as [Hq Hnd]. simpl.
  destruct j as [|j]; simpl in Hj.
  - injection Hj as ->. rewrite String.eqb_refl. f_equal. lia.
  - destruct (String.eqb_spec (common.Name p) (common.Name q)) as [Heq|Hne].
    + exfalso. apply Hq. rewrite <-Heq.
      apply list_elem_of_In, in_map, list_elem_of_In. by eapply list_elem_of_lookup_2.
    + rewrite (IH (S pn) j Hnd Hj). f_equal. lia.
Qed.

Lemma accountFor_events (ps : list common.Policy) (ks : list NetworkPolicy)
    (st : list (kubernetes.Event NetworkPolicy) * gset nat) :
  fst (fold_left (kubernetes.accountFor metaNamespace metaName ps) ks st)
  = fst st ++ map added (filter (fun k => fullName k ∉ map common.Name ps) ks).
Proof.
  revert st. induction ks as [|k ks IH]; intros st; simpl.
  - by rewrite app_nil_r.
  - rewrite IH. unfold kubernetes.accountFor.
    destruct (kubernetes.findPolicy (fullName k) 0 ps) as [pn|] eqn:Hf; simpl.
    + rewrite filter_cons_False; [done|].
      intros Hno. apply findPolicy_None with (pn := 0%nat) in Hno. congruence.
    + apply findPolicy_None in Hf. rewrite filter_cons_True by done.
      simpl. by rewrite <-app_assoc.
Qed.

Lemma accountFor_accounted (ps : list common.Policy) (ks : list NetworkPolicy)
    (st : list (kubernetes.Event NetworkPolicy) * gset nat) (n : nat) :
  n ∈ snd (fold_left (kubernetes.accountFor metaNamespace metaName ps) ks st) <->
  n ∈ snd st \/ exists k, k ∈ ks /\ kubernetes.findPolicy (fullName k) 0 ps = Some n.
Proof.
  revert st. induction ks as [|k ks IH]; intros st; simpl.
  - split; [by left|]. intros [H|(k & Hk & _)]; [done|by apply elem_of_nil in Hk].
  - rewrite IH. unfold kubernetes.accountFor.
    destruct (kubernetes.findPolicy (fullName k) 0 ps) as [pn|] eqn:Hf; simpl.
    + rewrite elem_of_union, elem_of_singleton. split.
      * intros [[H| ->]|(k' & Hk' & Hf')]; [by left| |].
        -- right. exists k. split; [by left|done].
        -- right. exists k'. split; [by right|done].
      * intros [H|(k' & Hk' & Hf')]; [by left; left|].
        apply elem_of_cons in Hk' as [->|Hk'].
        -- left. right. congruence.
        -- right. by exists k'.
    + split.
      * intros [H|(k' & Hk' & Hf')]; [by left|].
        right. exists k'. split; [by right|done].
      * intros [H|(k' & Hk' & Hf')]; [by left|].
        apply elem_of_cons in Hk' as [->|Hk']; [congruence|].
        right. by exists k'.
Qed.

Lemma obsolete_elem (acc : gset nat) (k : nat) (l : list common.Policy)
    (p : common.Policy) :
  p ∈ kubernetes.obsolete acc k l ->
  p ∈ l /\ String.prefix "kube." (common.Name p) = true.
Proof.
  revert k. induction l as [|q l IH]; intros k; simpl.
  - intros H. by apply elem_of_nil in H.
  - destruct (String.prefix "kube." (common.Name q)) eqn:Hpre; simpl.
    + destruct (bool_decide (k ∈ acc)).
      * intros [H1 H2]%IH. split; [by right|done].
      * intros [->|[H1 H2]%IH]%elem_of_cons; [split; [by left|done]|].
        split; [by right|done].
    + intros [H1 H2]%IH. split; [by right|done].
Qed.

Lemma obsolete_keeps (acc : gset nat) (k j : nat) (l : list common.Policy)
    (p : common.Policy) :
  l !! j = Some p -> String.prefix "kube." (common.Name p) = true ->
  (k + j)%nat ∉ acc ->
  p ∈ kubernetes.obsolete acc k l.
Proof.
  revert k j. induction l as [|q l IH]; intros k j Hj Hpre Hacc; [done|].
  simpl. destruct j as [|j]; simpl in Hj.
  - injection Hj as ->. rewrite Hpre. simpl.
    rewrite bool_decide_false; [by left|]. by rewrite Nat.add_0_r in Hacc.
  - assert (p ∈ kubernetes.obsolete acc (S k) l) as Hin.
    { apply (IH (S k) j); [done..|]. by replace (S k + j)%nat with (k + S j)%nat by lia. }
    destruct (String.prefix "kube." (common.Name q)); simpl; [|done].
    destruct (bool_decide (k ∈ acc)); [done|by right].
Qed.

Lemma obsolete_filter (acc : gset nat) (k : nat) (l : list common.Policy)
    (names : list string) :
  (forall j p, l !! j = Some p -> ((k + j)%nat ∈ acc <-> common.Name p ∈ names)) ->
  kubernetes.obsolete acc k l
  = filter (fun p => String.prefix "kube." (common.Name p) = true /\
                     common.Name p ∉ names) l.
Proof.
  revert k. induction l as [|q l IH]; intros k Hacc; simpl; [done|].
  assert (kubernetes.obsolete acc (S k) l
          = filter (fun p => String.prefix "kube." (common.Name p) = true /\
                             common.Name p ∉ names) l) as ->.
  { apply IH. intros j p Hj. rewrite <-(Hacc (S j) p Hj).
    by replace (S k + j)%nat with (k + S j)%nat by lia. }
  pose proof (Hacc 0%nat q eq_refl) as H0. rewrite Nat.add_0_r in H0.
  destruct (String.prefix "kube." (common.Name q)) eqn:Hpre; simpl.
  - destruct (bool_decide_reflect (k ∈ acc)) as [Hk|Hk].
    + rewrite filter_cons_False; [done|]. intros [_ Hn]. apply Hn, H0, Hk.
    + rewrite filter_cons_True; [done|]. split; [done|]. by rewrite <-H0.
  - rewrite filter_cons_False; [done|]. intros [Hp _]. congruence.
Qed.

Lemma sync_events (policies : list common.Policy) (kubePolicies : list NetworkPolicy) :
  fst (fst (kubernetes.syncNetworkPolicies metaNamespace metaName
              (inr policies) kubePolicies))
  = map added (filter (fun k => fullName k ∉ map common.Name policies) kubePolicies).
Proof. simpl. by rewrite accountFor_events. Qed.

Lemma sync_obsolete_unique (policies : list common.Policy)
    (kubePolicies : list NetworkPolicy) :
  NoDup (map common.Name policies) ->
  snd (fst (kubernetes.syncNetworkPolicies metaNamespace metaName
              (inr policies) kubePolicies))
  = filter (fun p => String.prefix "kube." (common.Name p) = true /\
                     common.Name p ∉ map fullName kubePolicies) policies.
Proof.
  intros Hnd. simpl. apply obsolete_filter. intros j p Hj. simpl.
  rewrite accountFor_accounted. simpl. split.
  - intros [H|(k & Hk & Hf)]; [by apply elem_of_empty in H|].
    apply findPolicy_Some in Hf as (j' & q & Hjj & Hq & Hname & _).
    simpl in Hjj. subst j'. rewrite Hj in Hq. injection Hq as <-.
    rewrite Hname. by apply list_elem_of_In, in_map, list_elem_of_In.
  - intros Hin. right.
    apply list_elem_of_In, in_map_iff in Hin as (k & Hk & Hin).
    apply list_elem_of_In in Hin. exists k. split; [done|].
    rewrite Hk. by apply (findPolicy_unique 0).
Qed.

End SyncFacts.

Lemma filter_none {A : Type} (P : A -> Prop) `{forall x, Decision (P x)} (l : list A) :
  (forall x, x ∈ l -> ~ P x) -> filter P l = [].
Proof.
  induction l as [|x l IH]; intros Hl; [done|].
  rewrite filter_cons_False by (apply Hl; by left).
  apply IH. intros y Hy. apply Hl. by right.
Qed.

(** X18. The events syncNetworkPolicies returns are ADDED events for
    exactly the kubernetes policies that have no romana policy named
    kube.<namespace>.<name>, in the order given. *)
Theorem syncNetworkPolicies_events {NetworkPolicy : Type}
    (metaNamespace metaName : NetworkPolicy -> string)
    (policies : list common.Policy) (kubePolicies : list NetworkPolicy) :
  fst (fst (kubernetes.syncNetworkPolicies metaNamespace metaName
              (inr policies) kubePolicies))
  = map kubesample.addedEvent
      (filter (fun k => kubernetes.fullPolicyName metaNamespace metaName k
                        ∉ map common.Name policies) kubePolicies).
Proof. apply sync_events. Qed.

(** X19. syncNetworkPolicies returns for deletion only romana policies it
    fetched whose name starts with kube. *)
Theorem syncNetworkPolicies_deletes_only_kube {NetworkPolicy : Type}
    (metaNamespace metaName : NetworkPolicy -> string)
    (fetched : string + list common.Policy) (kubePolicies : list NetworkPolicy)
    (p : common.Policy) :
  p ∈ snd (fst (kubernetes.syncNetworkPolicies metaNamespace metaName
                  fetched kubePolicies)) ->
  (exists policies, fetched = inr policies /\ p ∈ policies) /\
  String.prefix "kube." (common.Name p) = true.
Proof.
  destruct fetched as [err|policies]; simpl.
  - intros H. by apply elem_of_nil in H.
  - intros [H1 H2]%obsolete_elem. split; [by exists policies|done].
Qed.

Lemma syncNetworkPolicies_deletes_only_kube_witness :
  kubesample.named "kube.default.old"
    ∈ snd (fst (kubernetes.syncNetworkPolicies fst snd
                  (inr kubesample.romanaPolicies) kubesample.kubePolicies)) /\
  (exists policies,
     inr kubesample.romanaPolicies = inr (A := string) policies /\
     kubesample.named "kube.default.old" ∈ policies) /\
  String.prefix "kube." (common.Name (kubesample.named "kube.default.old")) = true.
Proof.
  assert (kubesample.named "kube.default.old"
            ∈ snd (fst (kubernetes.syncNetworkPolicies fst snd
                          (inr kubesample.romanaPolicies) kubesample.kubePolicies)))
    as H by (vm_compute; left).
  split; [exact H|].
  exact (syncNetworkPolicies_deletes_only_kube fst snd
           (inr kubesample.romanaPolicies) kubesample.kubePolicies _ H).
Defined.

(** X20. When the fetched romana policies have different names, the
    policies returned for deletion are exactly those named kube.* whose
    name is kube.<namespace>.<name> of no kubernetes policy, in the order
    fetched. *)
Theorem syncNetworkPolicies_obsolete {NetworkPolicy : Type}
    (metaNamespace metaName : NetworkPolicy -> string)
    (policies : list common.Policy) (kubePolicies : list NetworkPolicy) :
  NoDup (map common.Name policies) ->
  snd (fst (kubernetes.syncNetworkPolicies metaNamespace metaName
              (inr policies) kubePolicies))
  = filter (fun p => String.prefix "kube." (common.Name p) = true /\
                     common.Name p
                     ∉ map (kubernetes.fullPolicyName metaNamespace metaName) kubePolicies)
           policies.
Proof. apply sync_obsolete_unique. Qed.

Lemma syncNetworkPolicies_obsolete_witness :
  NoDup (map common.Name kubesample.romanaPolicies) /\
  snd (fst (kubernetes.syncNetworkPolicies fst snd
              (inr kubesample.romanaPolicies) kubesample.kubePolicies))
  = filter (fun p => String.prefix "kube." (common.Name p) = true /\
                     common.Name p
                     ∉ map (kubernetes.fullPolicyName fst snd) kubesample.kubePolicies)
           kubesample.romanaPolicies.
Proof.
  assert (NoDup (map common.Name kubesample.romanaPolicies)) as H
    by (apply (bool_decide_unpack _); vm_compute; exact I).
  split; [exact H|].
  exact (syncNetworkPolicies_obsolete fst snd kubesample.romanaPolicies
           kubesample.kubePolicies H).
Defined.

(** X21. Only the first romana policy with a name is accounted for: a
    policy named kube.* whose name occurs earlier among the fetched
    policies is returned for deletion, whatever the kubernetes policies
    are. *)
Theorem syncNetworkPolicies_deletes_second_of_a_name {NetworkPolicy : Type}
    (metaNamespace metaName : NetworkPolicy -> string)
    (policies : list common.Policy) (kubePolicies : list NetworkPolicy)
    (j k : nat) (p1 p2 : common.Policy) :
  policies !! j = Some p1 -> policies !! k = Some p2 -> (j < k)%nat ->
  common.Name p1 = common.Name p2 ->
  String.prefix "kube." (common.Name p2) = true ->
  p2 ∈ snd (fst (kubernetes.syncNetworkPolicies metaNamespace metaName
                   (inr policies) kubePolicies)).
Proof.
  intros Hj Hk Hlt Hname Hpre. simpl.
  apply (obsolete_keeps _ 0 k); [done..|]. simpl.
  rewrite accountFor_accounted. simpl.
  intros [H|(kp & _ & Hf)]; [by apply elem_of_empty in H|].
  apply findPolicy_Some in Hf as (j' & q & Hjj & Hq & Hfull & Hmin).
  simpl in Hjj. subst j'. rewrite Hk in Hq. injection Hq as <-.
  apply (Hmin j p1 Hlt Hj). congruence.
Qed.

Lemma syncNetworkPolicies_deletes_second_of_a_name_witness :
  (kubesample.doubled !! 0%nat = Some (kubesample.named "kube.default.web") /\
   kubesample.doubled !! 1%nat = Some (kubesample.named "kube.default.web") /\
   (0 < 1)%nat /\
   common.Name (kubesample.named "kube.default.web")
   = common.Name (kubesample.named "kube.default.web") /\
   String.prefix "kube." (common.Name (kubesample.named "kube.default.web")) = true) /\
  kubesample.named "kube.default.web"
    ∈ snd (fst (kubernetes.syncNetworkPolicies fst snd
                  (inr kubesample.doubled) kubesample.kubePolicies)).
Proof.
  split; [split_and!; [reflexivity|reflexivity|lia|reflexivity|reflexivity]|].
  apply (syncNetworkPolicies_deletes_second_of_a_name fst snd kubesample.doubled
           kubesample.kubePolicies 0 1 (kubesample.named "kube.default.web")
           (kubesample.named "kube.default.web")); [reflexivity|reflexivity|lia|
           reflexivity|reflexivity].
Defined.

(** X22. When every kubernetes policy has its romana policy, the fetched
    names are all different and every fetched policy named kube.* belongs
    to a kubernetes policy, syncNetworkPolicies returns no event, no
    policy and no error. *)
Theorem syncNetworkPolicies_in_sync {NetworkPolicy : Type}
    (metaNamespace metaName : NetworkPolicy -> string)
    (policies : list common.Policy) (kubePolicies : list NetworkPolicy) :
  NoDup (map common.Name policies) ->
  (forall k, k ∈ kubePolicies ->
     kubernetes.fullPolicyName metaNamespace metaName k ∈ map common.Name policies) ->
  (forall p, p ∈ policies -> String.prefix "kube." (common.Name p) = true ->
     common.Name p ∈ map (kubernetes.fullPolicyName metaNamespace metaName) kubePolicies) ->
  kubernetes.syncNetworkPolicies metaNamespace metaName (inr policies) kubePolicies
  = ([], [], None).
Proof.
  intros Hnd Hk Hp.
  pose proof (sync_events metaNamespace metaName policies kubePolicies) as He.
  pose proof (sync_obsolete_unique metaNamespace metaName policies kubePolicies Hnd) as Ho.
  destruct (kubernetes.syncNetworkPolicies metaNamespace metaName (inr policies)
              kubePolicies) as [[ev ob] err] eqn:Hs.
  simpl in He, Ho. assert (err = None) as -> by (simpl in Hs; congruence).
  f_equal. f_equal.
  - rewrite He. assert (filter (fun k => kubernetes.fullPolicyName metaNamespace metaName k
                                         ∉ map common.Name policies) kubePolicies = [])
      as ->; [|done].
    apply filter_none. intros k Hin Hno. by apply Hno, Hk.
  - rewrite Ho. apply filter_none.
    intros p Hin [Hpre Hno]. by apply Hno, Hp.
Qed.

Lemma syncNetworkPolicies_in_sync_witness :
  (NoDup (map common.Name kubesample.settledPolicies) /\
   (forall k, k ∈ kubesample.settledKubePolicies ->
      kubernetes.fullPolicyName fst snd k
      ∈ map common.Name kubesample.settledPolicies) /\
   (forall p, p ∈ kubesample.settledPolicies ->
      String.prefix "kube." (common.Name p) = true ->
      common.Name p
      ∈ map (kubernetes.fullPolicyName fst snd) kubesample.settledKubePolicies)) /\
  kubernetes.syncNetworkPolicies fst snd (inr kubesample.settledPolicies)
    kubesample.settledKubePolicies
  = ([], [], None).
Proof.
  assert (NoDup (map common.Name kubesample.settledPolicies)) as H1
    by (apply (bool_decide_unpack _); vm_compute; exact I).
  assert (forall k, k ∈ kubesample.settledKubePolicies ->
            kubernetes.fullPolicyName fst snd k
            ∈ map common.Name kubesample.settledPolicies) as H2.
  { intros k Hk. apply elem_of_cons in Hk as [->|Hk]; [by left|].
    by apply elem_of_nil in Hk. }
  assert (forall p, p ∈ kubesample.settledPolicies ->
            String.prefix "kube." (common.Name p) = true ->
            common.Name p
            ∈ map (kubernetes.fullPolicyName fst snd) kubesample.settledKubePolicies)
    as H3.
  { intros p Hp Hpre. apply elem_of_cons in Hp as [->|Hp]; [by left|].
    apply elem_of_cons in Hp as [->|Hp]; [discriminate Hpre|].
    by apply elem_of_nil in Hp. }
  split; [exact (conj H1 (conj H2 H3))|].
  exact (syncNetworkPolicies_in_sync fst snd kubesample.settledPolicies
           kubesample.settledKubePolicies H1 H2 H3).
Defined.

(** ** handleNetworkPolicyEvents *)

Section HandleFacts.
Context {NetworkPolicy : Type}.
Variable Kube2RomanaBulk : list NetworkPolicy -> list common.Policy.

Lemma splitEvents_app (l1 l2 : list (kubernetes.Event NetworkPolicy)) :
  kubernetes.splitEvents (l1 ++ l2)
  = match kubernetes.splitEvents l1, kubernetes.splitEvents l2 with
    | Some (c1, d1), Some (c2, d2) => Some (c1 ++ c2, d1 ++ d2)
    | _, _ => None
    end.
Proof.
  induction l1 as [|e l1 IH]; simpl.
  - by destruct (kubernetes.splitEvents l2) as [[c2 d2]|].
  - destruct (String.eqb (kubernetes.EvType e) kubernetes.KubeEventAdded).
    { destruct (kubernetes.EvObject e); [|done..]. rewrite IH.
      destruct (kubernetes.splitEvents l1) as [[c1 d1]|]; [|done].
      by destruct (kubernetes.splitEvents l2) as [[c2 d2]|]. }
    destruct (String.eqb (kubernetes.EvType e) kubernetes.KubeEventDeleted).
    { destruct (kubernetes.EvObject e); [|done..]. rewrite IH.
      destruct (kubernetes.splitEvents l1) as [[c1 d1]|]; [|done].
      by destruct (kubernetes.splitEvents l2) as [[c2 d2]|]. }
    exact IH.
Qed.

Lemma splitEvents_other (e : kubernetes.Event NetworkPolicy) :
  kubernetes.EvType e <> kubernetes.KubeEventAdded ->
  kubernetes.EvType e <> kubernetes.KubeEventDeleted ->
  kubernetes.splitEvents [e] = Some ([], []).
Proof.
  intros Ha Hd. simpl.
  destruct (String.eqb_spec (kubernetes.EvType e) kubernetes.KubeEventAdded); [done|].
  by destruct (String.eqb_spec (kubernetes.EvType e) kubernetes.KubeEventDeleted).
Qed.

Lemma handle_ignores (l1 l2 : list (kubernetes.Event NetworkPolicy))
    (e : kubernetes.Event NetworkPolicy) :
  kubernetes.EvType e <> kubernetes.KubeEventAdded ->
  kubernetes.EvType e <> kubernetes.KubeEventDeleted ->
  kubernetes.handleNetworkPolicyEvents Kube2RomanaBulk (l1 ++ e :: l2)
  = kubernetes.handleNetworkPolicyEvents Kube2RomanaBulk (l1 ++ l2).
Proof.
  intros Ha Hd. unfold kubernetes.handleNetworkPolicyEvents.
  change (e :: l2) with ([e] ++ l2).
  rewrite !splitEvents_app, (splitEvents_other e Ha Hd).
  destruct (kubernetes.splitEvents l1) as [[c1 d1]|]; [|done].
  by destruct (kubernetes.splitEvents l2) as [[c2 d2]|].
Qed.

Lemma splitEvents_None (events : list (kubernetes.Event NetworkPolicy)) :
  kubernetes.splitEvents events = None <->
  exists e, e ∈ events /\
    (kubernetes.EvType e = kubernetes.KubeEventAdded \/
     kubernetes.EvType e = kubernetes.KubeEventDeleted) /\
    forall np, kubernetes.EvObject e <> kubernetes.ObjNetworkPolicy np.
Proof.
  induction events as [|e events IH]; simpl.
  - split; [done|]. intros (e & He & _). by apply elem_of_nil in He.
  - assert ((exists e', e' ∈ events /\
               (kubernetes.EvType e' = kubernetes.KubeEventAdded \/
                kubernetes.EvType e' = kubernetes.KubeEventDeleted) /\
               forall np, kubernetes.EvObject e' <> kubernetes.ObjNetworkPolicy np) ->
            exists e', e' ∈ e :: events /\
               (kubernetes.EvType e' = kubernetes.KubeEventAdded \/
                kubernetes.EvType e' = kubernetes.KubeEventDeleted) /\
               forall np, kubernetes.EvObject e' <> kubernetes.ObjNetworkPolicy np) as Htail.
    { intros (e' & He' & H). exists e'. split; [by right|done]. }
    destruct (String.eqb_spec (kubernetes.EvType e) kubernetes.KubeEventAdded) as [Ha|Ha];
      [|destruct (String.eqb_spec (kubernetes.EvType e) kubernetes.KubeEventDeleted)
          as [Hd|Hd]].
    + destruct (kubernetes.EvObject e) as [np| |] eqn:Ho.
      * destruct (kubernetes.splitEvents events) as [[c d]|].
        -- split; [done|]. intros (e' & [->|He']%elem_of_cons & Ht & Hob).
           ++ by destruct (Hob np).
           ++ assert (Some (c, d) = None) as Hbad; [|done].
              apply IH. by exists e'.
        -- split; [|done]. intros _. by apply Htail, IH.
      * split; [|done]. intros _. exists e.
        split_and!; [by left|by left|]. intros np. by rewrite Ho.
      * split; [|done]. intros _. exists e.
        split_and!; [by left|by left|]. intros np. by rewrite Ho.
    + destruct (kubernetes.EvObject e) as [np| |] eqn:Ho.
      * destruct (kubernetes.splitEvents events) as [[c d]|].
        -- split; [done|]. intros (e' & [->|He']%elem_of_cons & Ht & Hob).
           ++ by destruct (Hob np).
           ++ assert (Some (c, d) = None) as Hbad; [|done].
              apply IH. by exists e'.
        -- split; [|done]. intros _. by apply Htail, IH.
      * split; [|done]. intros _. exists e.
        split_and!; [by left|by right|]. intros np. by rewrite Ho.
      * split; [|done]. intros _. exists e.
        split_and!; [by left|by right|]. intros np. by rewrite Ho.
    + rewrite IH. split; [apply Htail|].
      intros (e' & [->|He']%elem_of_cons & Ht & Hob); [by destruct Ht|].
      by exists e'.
Qed.

End HandleFacts.

(** X23. handleNetworkPolicyEvents ignores events that are neither ADDED
    nor DELETED, whatever their object: with or without such an event the
    same policies are applied. *)
Theorem handleNetworkPolicyEvents_ignores_other_events {NetworkPolicy : Type}
    (Kube2RomanaBulk : list NetworkPolicy -> list common.Policy)
    (l1 l2 : list (kubernetes.Event NetworkPolicy))
    (e : kubernetes.Event NetworkPolicy) :
  kubernetes.EvType e <> kubernetes.KubeEventAdded ->
  kubernetes.EvType e <> kubernetes.KubeEventDeleted ->
  kubernetes.handleNetworkPolicyEvents Kube2RomanaBulk (l1 ++ e :: l2)
  = kubernetes.handleNetworkPolicyEvents Kube2RomanaBulk (l1 ++ l2).
Proof. apply handle_ignores. Qed.

(** X24. handleNetworkPolicyEvents panics exactly when an ADDED or DELETED
    event carries something that is not a network policy; it then applies
    no policy at all, since all events are sorted out before the first
    policy is applied. *)
Theorem handleNetworkPolicyEvents_panics {NetworkPolicy : Type}
    (Kube2RomanaBulk : list NetworkPolicy -> list common.Policy)
    (events : list (kubernetes.Event NetworkPolicy)) :
  kubernetes.handleNetworkPolicyEvents Kube2RomanaBulk events = None <->
  exists e, e ∈ events /\
    (kubernetes.EvType e = kubernetes.KubeEventAdded \/
     kubernetes.EvType e = kubernetes.KubeEventDeleted) /\
    forall np, kubernetes.EvObject e <> kubernetes.ObjNetworkPolicy np.
Proof.
  rewrite <-splitEvents_None. unfold kubernetes.handleNetworkPolicyEvents.
  by destruct (kubernetes.splitEvents events) as [[c d]|].
Qed.

Lemma handleNetworkPolicyEvents_ignores_other_events_witness :
  (kubernetes.EvType (kubesample.eventOf kubernetes.KubeEventModified kubernetes.ObjOther)
   <> kubernetes.KubeEventAdded /\
   kubernetes.EvType (kubesample.eventOf kubernetes.KubeEventModified kubernetes.ObjOther)
   <> kubernetes.KubeEventDeleted) /\
  kubernetes.handleNetworkPolicyEvents kubesample.translate
    ([kubesample.addedEvent (kubesample.kubePolicy "default" "web")]
     ++ kubesample.eventOf kubernetes.KubeEventModified kubernetes.ObjOther :: [])
  = kubernetes.handleNetworkPolicyEvents kubesample.translate
      ([kubesample.addedEvent (kubesample.kubePolicy "default" "web")] ++ []).
Proof.
  assert (kubernetes.EvType
            (kubesample.eventOf kubernetes.KubeEventModified kubernetes.ObjOther)
          <> kubernetes.KubeEventAdded) as H1 by (vm_compute; discriminate).
  assert (kubernetes.EvType
            (kubesample.eventOf kubernetes.KubeEventModified kubernetes.ObjOther)
          <> kubernetes.KubeEventDeleted) as H2 by (vm_compute; discriminate).
  split; [exact (conj H1 H2)|].
  exact (handleNetworkPolicyEvents_ignores_other_events kubesample.translate
           [kubesample.addedEvent (kubesample.kubePolicy "default" "web")] []
           (kubesample.eventOf kubernetes.KubeEventModified kubernetes.ObjOther) H1 H2).
Defined.

(** ** manageResources *)

Section ResourceFacts.
Context {V : Type} {NetworkPolicy : Type}.
Implicit Types st : kubernetes.resources V.

Lemma terminate_consistent st (uid : string) (c : kubernetes.chan) :
  kubernetes.consistent st -> kubernetes.terminators st !! uid = Some c ->
  exists st', kubernetes.terminate uid c st = Some st' /\
    kubernetes.consistent st' /\
    kubernetes.terminators st' = delete uid (kubernetes.terminators st) /\
    kubernetes.lastEventPerNamespace st' = delete uid (kubernetes.lastEventPerNamespace st) /\
    kubernetes.closed st' = kubernetes.closed st ∪ {[ c ]} /\
    kubernetes.nextChan st' = kubernetes.nextChan st.
Proof.
  intros (Hopen & Hinj & Hold) Hc.
  destruct (Hopen uid c Hc) as [Hnc Hlt].
  unfold kubernetes.terminate, kubernetes.closeChan.
  rewrite bool_decide_false by done. eexists. split; [reflexivity|].
  split_and!; try reflexivity. unfold kubernetes.consistent.
  cbn [kubernetes.terminators kubernetes.closed kubernetes.nextChan
         kubernetes.lastEventPerNamespace]. split_and!.
  - intros uid' c' [Hne Hc']%lookup_delete_Some.
    destruct (Hopen uid' c' Hc') as [Hnc' Hlt']. split; [|done].
    intros [?| ->%elem_of_singleton]%elem_of_union; [done|].
    by apply Hne, (Hinj uid uid' c).
  - intros uid1 uid2 c' [_ H1]%lookup_delete_Some [_ H2]%lookup_delete_Some.
    by apply (Hinj uid1 uid2 c').
  - intros c' [?| ->%elem_of_singleton]%elem_of_union; [by apply Hold|done].
Qed.

Lemma terminateEach_consistent (entries : list (string * kubernetes.chan)) st :
  kubernetes.consistent st -> NoDup entries.*1 ->
  (forall uid c, (uid, c) ∈ entries -> kubernetes.terminators st !! uid = Some c) ->
  exists st', kubernetes.terminateEach entries st = Some st' /\
    kubernetes.consistent st' /\
    (forall uid, kubernetes.terminators st' !! uid
                 = if decide (uid ∈ entries.*1) then None
                   else kubernetes.terminators st !! uid) /\
    (forall uid, kubernetes.lastEventPerNamespace st' !! uid
                 = if decide (uid ∈ entries.*1) then None
                   else kubernetes.lastEventPerNamespace st !! uid) /\
    (forall c, c ∈ kubernetes.closed st' <->
               c ∈ kubernetes.closed st \/ c ∈ entries.*2) /\
    kubernetes.nextChan st' = kubernetes.nextChan st.
Proof.
  revert st. induction entries as [|[uid c] entries IH]; intros st Hst Hnd Hin.
  - exists st. split_and!; try done.
    intros c. split; [by left|]. intros [?|H]; [done|by apply elem_of_nil in H].
  - cbn in Hnd. apply NoDup_cons in Hnd as [Hfresh Hnd].
    destruct (terminate_consistent st uid c Hst (Hin uid c ltac:(by left)))
      as (st1 & Hrun & Hst1 & Ht1 & Hl1 & Hc1 & Hn1).
    destruct (IH st1 Hst1 Hnd) as (st' & Hrun' & Hst' & Ht' & Hl' & Hc' & Hn').
    { intros uid' c' Hin'. rewrite Ht1. rewrite lookup_delete_ne.
      - apply Hin. by right.
      - intros ->. apply Hfresh. apply list_elem_of_fmap. by exists (uid', c'). }
    exists st'. cbn [kubernetes.terminateEach]. rewrite Hrun. split; [done|].
    split; [done|]. cbn [fmap list_fmap fst snd]. split_and!.
    + intros u. rewrite Ht', Ht1.
      destruct (decide (u = uid)) as [->|Hne].
      * rewrite (decide_True (P := uid ∈ uid :: entries.*1)) by (by left).
        rewrite lookup_delete_eq. by destruct (decide (uid ∈ entries.*1)).
      * rewrite lookup_delete_ne by done.
        destruct (decide (u ∈ entries.*1)) as [Hu|Hu].
        -- by rewrite decide_True by (by right).
        -- rewrite decide_False; [done|].
           by intros [?|?]%elem_of_cons.
    + intros u. rewrite Hl', Hl1.
      destruct (decide (u = uid)) as [->|Hne].
      * rewrite (decide_True (P := uid ∈ uid :: entries.*1)) by (by left).
        rewrite lookup_delete_eq. by destruct (decide (uid ∈ entries.*1)).
      * rewrite lookup_delete_ne by done.
        destruct (decide (u ∈ entries.*1)) as [Hu|Hu].
        -- by rewrite decide_True by (by right).
        -- rewrite decide_False; [done|].
           by intros [?|?]%elem_of_cons.
    + intros c'. rewrite Hc', Hc1, elem_of_union, elem_of_singleton, elem_of_cons.
      split; [intros [[?|?]|?]|intros [?|[?|?]]]; auto.
    + by rewrite Hn', Hn1.
Qed.

Lemma manage_namespace (ev : kubernetes.Event NetworkPolicy) st
    (ns : kubernetes.NamespaceObj) :
  kubernetes.consistent st -> kubernetes.EvObject ev = kubernetes.ObjNamespace ns ->
  exists st', kubernetes.manageResources ev st = Some st' /\ kubernetes.consistent st'.
Proof.
  intros Hst Hobj. unfold kubernetes.manageResources. rewrite Hobj.
  destruct (String.eqb (kubernetes.EvType ev) kubernetes.KubeEventAdded).
  { destruct (kubernetes.terminators st !! kubernetes.UID ns) as [c|] eqn:Hc.
    - by exists st.
    - eexists. split; [reflexivity|].
      destruct Hst as (Hopen & Hinj & Hold). unfold kubernetes.consistent.
      cbn [kubernetes.terminators kubernetes.closed kubernetes.nextChan
             kubernetes.lastEventPerNamespace]. split_and!.
      + intros uid c [[_ <-]|[Hne Hc']]%lookup_insert_Some.
        * split; [|lia]. intros Hin%Hold. lia.
        * destruct (Hopen uid c Hc'). split; [done|lia].
      + intros uid1 uid2 c [[E1 H1]|[Hne1 H1]]%lookup_insert_Some
          [[E2 H2]|[Hne2 H2]]%lookup_insert_Some.
        * congruence.
        * subst c. destruct (Hopen uid2 _ H2). lia.
        * subst c. destruct (Hopen uid1 _ H1). lia.
        * by apply (Hinj uid1 uid2 c).
      + intros c Hin%Hold. lia. }
  destruct (String.eqb (kubernetes.EvType ev) kubernetes.KubeEventDeleted).
  { destruct (kubernetes.terminators st !! kubernetes.UID ns) as [c|] eqn:Hc.
    - destruct (terminate_consistent st _ c Hst Hc) as (st' & Hrun & Hst' & _).
      by exists st'.
    - by exists st. }
  destruct (String.eqb (kubernetes.EvType ev) kubernetes.InternalEventDeleteAll).
  { destruct (terminateEach_consistent (map_to_list (kubernetes.terminators st)) st Hst)
      as (st' & Hrun & Hst' & _).
    - apply NoDup_fst_map_to_list.
    - intros uid c. apply elem_of_map_to_list.
    - by exists st'. }
  by exists st.
Qed.

Lemma manage_delete_all (ev : kubernetes.Event NetworkPolicy) st
    (ns : kubernetes.NamespaceObj) :
  kubernetes.consistent st -> kubernetes.EvObject ev = kubernetes.ObjNamespace ns ->
  kubernetes.EvType ev = kubernetes.InternalEventDeleteAll ->
  exists st', kubernetes.manageResources ev st = Some st' /\
    kubernetes.terminators st' = ∅ /\
    (forall uid c, kubernetes.terminators st !! uid = Some c ->
       c ∈ kubernetes.closed st' /\
       kubernetes.lastEventPerNamespace st' !! uid = None).
Proof.
  intros Hst Hobj Hty. unfold kubernetes.manageResources. rewrite Hobj, Hty.
  change (String.eqb kubernetes.InternalEventDeleteAll kubernetes.KubeEventAdded) with false.
  change (String.eqb kubernetes.InternalEventDeleteAll kubernetes.KubeEventDeleted) with false.
  change (String.eqb kubernetes.InternalEventDeleteAll kubernetes.InternalEventDeleteAll) with true.
  cbv iota.
  destruct (terminateEach_consistent (map_to_list (kubernetes.terminators st)) st Hst)
    as (st' & Hrun & Hst' & Ht & Hl & Hc & _).
  - apply NoDup_fst_map_to_list.
  - intros uid c. apply elem_of_map_to_list.
  - exists st'. split; [done|]. split.
    + apply map_empty. intros uid. rewrite Ht.
      destruct (decide (uid ∈ (map_to_list (kubernetes.terminators st)).*1))
        as [Hin|Hin]; [done|].
      destruct (kubernetes.terminators st !! uid) as [c|] eqn:Hu; [|done].
      exfalso. apply Hin, list_elem_of_fmap. exists (uid, c).
      split; [done|]. by apply elem_of_map_to_list.
    + intros uid c Hu. split.
      * apply Hc. right. apply list_elem_of_fmap. exists (uid, c).
        split; [done|]. by apply elem_of_map_to_list.
      * rewrite Hl. rewrite decide_True; [done|].
        apply list_elem_of_fmap. exists (uid, c).
        split; [done|]. by apply elem_of_map_to_list.
Qed.

End ResourceFacts.

(** X25. Starting from a consistent state (the channels in the map are
    open, each belongs to one namespace, none was made after [nextChan]),
    manageResources panics exactly when the event carries no namespace,
    whatever the type of the event; otherwise it closes no channel twice
    and leaves a consistent state. *)
Theorem manageResources_keeps_consistent {V NetworkPolicy : Type}
    (ev : kubernetes.Event NetworkPolicy) (st : kubernetes.resources V) :
  kubernetes.consistent st ->
  (is_Some (kubernetes.manageResources ev st) <->
   exists ns, kubernetes.EvObject ev = kubernetes.ObjNamespace ns) /\
  (forall st', kubernetes.manageResources ev st = Some st' ->
     kubernetes.consistent st').
Proof.
  intros Hst. split; [split|].
  - intros [st' Hrun]. unfold kubernetes.manageResources in Hrun.
    destruct (kubernetes.EvObject ev) as [np|ns|]; [done|by exists ns|done].
  - intros [ns Hobj].
    destruct (manage_namespace ev st ns Hst Hobj) as (st' & -> & _). by eexists.
  - intros st' Hrun.
    destruct (kubernetes.EvObject ev) as [np|ns|] eqn:Hobj;
      [by unfold kubernetes.manageResources in Hrun; rewrite Hobj in Hrun| |
       by unfold kubernetes.manageResources in Hrun; rewrite Hobj in Hrun].
    destruct (manage_namespace ev st ns Hst Hobj) as (st1 & Hrun1 & Hst1).
    congruence.
Qed.

Lemma idle_consistent : kubernetes.consistent kubesample.idle.
Proof.
  split_and!.
  - intros uid c H.
    change ((∅ : gmap string kubernetes.chan) !! uid = Some c) in H.
    by rewrite lookup_empty in H.
  - intros uid1 uid2 c H.
    change ((∅ : gmap string kubernetes.chan) !! uid1 = Some c) in H.
    by rewrite lookup_empty in H.
  - intros c H. change (c ∈ (∅ : gset kubernetes.chan)) in H.
    by apply elem_of_empty in H.
Qed.

Lemma managing_consistent : kubernetes.consistent kubesample.managing.
Proof.
  split_and!.
  - intros uid c H.
    change (({[ "uid-1" := 1%positive ]} : gmap string kubernetes.chan) !! uid = Some c)
      in H.
    apply lookup_singleton_Some in H as [_ <-]. split; [|done].
    intros Hin. change (1%positive ∈ (∅ : gset kubernetes.chan)) in Hin.
    by apply elem_of_empty in Hin.
  - intros uid1 uid2 c H1 H2.
    change (({[ "uid-1" := 1%positive ]} : gmap string kubernetes.chan) !! uid1 = Some c)
      in H1.
    change (({[ "uid-1" := 1%positive ]} : gmap string kubernetes.chan) !! uid2 = Some c)
      in H2.
    apply lookup_singleton_Some in H1 as [<- _].
    by apply lookup_singleton_Some in H2 as [<- _].
  - intros c H. change (c ∈ (∅ : gset kubernetes.chan)) in H.
    by apply elem_of_empty in H.
Qed.

Lemma manageResources_keeps_consistent_witness :
  kubernetes.consistent kubesample.managing /\
  (is_Some (kubernetes.manageResources
              (kubesample.namespaceEvent kubernetes.KubeEventDeleted "uid-1")
              kubesample.managing) <->
   exists ns,
     kubernetes.EvObject (kubesample.namespaceEvent kubernetes.KubeEventDeleted "uid-1")
     = kubernetes.ObjNamespace ns) /\
  (forall st',
     kubernetes.manageResources
       (kubesample.namespaceEvent kubernetes.KubeEventDeleted "uid-1")
       kubesample.managing = Some st' ->
     kubernetes.consistent st').
Proof.
  split; [exact managing_consistent|].
  exact (manageResources_keeps_consistent
           (kubesample.namespaceEvent kubernetes.KubeEventDeleted "uid-1")
           kubesample.managing managing_consistent).
Defined.

(** X26. A repeated ADDED event changes nothing: after an ADDED event for
    a namespace, the same event leaves the state as it is and makes no
    channel. *)
Theorem manageResources_added_twice {V NetworkPolicy : Type}
    (ev : kubernetes.Event NetworkPolicy) (st st' : kubernetes.resources V) :
  kubernetes.EvType ev = kubernetes.KubeEventAdded ->
  kubernetes.manageResources ev st = Some st' ->
  kubernetes.manageResources ev st' = Some st'.
Proof.
  intros Hty. unfold kubernetes.manageResources. rewrite Hty.
  change (String.eqb kubernetes.KubeEventAdded kubernetes.KubeEventAdded) with true.
  cbv iota.
  destruct (kubernetes.EvObject ev) as [np|ns|]; [done| |done].
  destruct (kubernetes.terminators st !! kubernetes.UID ns) as [c|] eqn:Hc.
  - intros [= <-]. by rewrite Hc.
  - intros [= <-].
    cbn [kubernetes.terminators]. by rewrite lookup_insert_eq.
Qed.

Lemma manageResources_added_twice_witness :
  (kubernetes.EvType (kubesample.namespaceEvent kubernetes.KubeEventAdded "uid-1")
   = kubernetes.KubeEventAdded /\
   kubernetes.manageResources
     (kubesample.namespaceEvent kubernetes.KubeEventAdded "uid-1") kubesample.idle
   = Some kubesample.managing) /\
  kubernetes.manageResources
    (kubesample.namespaceEvent kubernetes.KubeEventAdded "uid-1") kubesample.managing
  = Some kubesample.managing.
Proof.
  assert (kubernetes.manageResources
            (kubesample.namespaceEvent kubernetes.KubeEventAdded "uid-1") kubesample.idle
          = Some kubesample.managing) as H by reflexivity.
  split; [exact (conj eq_refl H)|].
  exact (manageResources_added_twice
           (kubesample.namespaceEvent kubernetes.KubeEventAdded "uid-1")
           kubesample.idle kubesample.managing eq_refl H).
Defined.

(** X27. ADDED and then DELETED for a namespace that was not managed
    restores the map of channels: the channel made in between is closed
    and the namespace's entry of lastEventPerNamespace is gone. *)
Theorem manageResources_added_then_deleted {V NetworkPolicy : Type}
    (evA evD : kubernetes.Event NetworkPolicy) (st : kubernetes.resources V)
    (ns : kubernetes.NamespaceObj) :
  kubernetes.consistent st ->
  kubernetes.terminators st !! kubernetes.UID ns = None ->
  kubernetes.EvType evA = kubernetes.KubeEventAdded ->
  kubernetes.EvObject evA = kubernetes.ObjNamespace ns ->
  kubernetes.EvType evD = kubernetes.KubeEventDeleted ->
  kubernetes.EvObject evD = kubernetes.ObjNamespace ns ->
  exists st1 st2,
    kubernetes.manageResources evA st = Some st1 /\
    kubernetes.manageResources evD st1 = Some st2 /\
    kubernetes.terminators st2 = kubernetes.terminators st /\
    kubernetes.closed st2 = kubernetes.closed st ∪ {[ kubernetes.nextChan st ]} /\
    kubernetes.lastEventPerNamespace st2
    = delete (kubernetes.UID ns) (kubernetes.lastEventPerNamespace st).
Proof.
  intros (Hopen & Hinj & Hold) Hnew HtA HoA HtD HoD.
  eexists _, _. unfold kubernetes.manageResources at 1. rewrite HoA, HtA, Hnew.
  change (String.eqb kubernetes.KubeEventAdded kubernetes.KubeEventAdded) with true.
  cbv iota. split; [reflexivity|].
  unfold kubernetes.manageResources. rewrite HoD, HtD.
  change (String.eqb kubernetes.KubeEventDeleted kubernetes.KubeEventAdded) with false.
  change (String.eqb kubernetes.KubeEventDeleted kubernetes.KubeEventDeleted) with true.
  cbv iota. cbn [kubernetes.terminators]. rewrite lookup_insert_eq.
  unfold kubernetes.terminate, kubernetes.closeChan.
  cbn [kubernetes.terminators kubernetes.closed kubernetes.nextChan
       kubernetes.lastEventPerNamespace].
  rewrite bool_decide_false.
  - split; [reflexivity|].
    cbn [kubernetes.terminators kubernetes.closed kubernetes.nextChan
         kubernetes.lastEventPerNamespace].
    split_and!; [|done|done].
    by rewrite delete_insert_eq, delete_id.
  - intros Hin%Hold. lia.
Qed.

Lemma manageResources_added_then_deleted_witness :
  (kubernetes.consistent kubesample.idle /\
   kubernetes.terminators kubesample.idle !! "uid-1" = None) /\
  exists st1 st2,
    kubernetes.manageResources
      (kubesample.namespaceEvent kubernetes.KubeEventAdded "uid-1") kubesample.idle
    = Some st1 /\
    kubernetes.manageResources
      (kubesample.namespaceEvent kubernetes.KubeEventDeleted "uid-1") st1
    = Some st2 /\
    kubernetes.terminators st2 = kubernetes.terminators kubesample.idle /\
    kubernetes.closed st2
    = kubernetes.closed kubesample.idle ∪ {[ kubernetes.nextChan kubesample.idle ]} /\
    kubernetes.lastEventPerNamespace st2
    = delete "uid-1" (kubernetes.lastEventPerNamespace kubesample.idle).
Proof.
  split; [exact (conj idle_consistent eq_refl)|].
  exact (manageResources_added_then_deleted
           (kubesample.namespaceEvent kubernetes.KubeEventAdded "uid-1")
           (kubesample.namespaceEvent kubernetes.KubeEventDeleted "uid-1")
           kubesample.idle
           {| kubernetes.UID := "uid-1"; kubernetes.NsName := "default" |}
           idle_consistent eq_refl eq_refl eq_refl eq_refl eq_refl).
Defined.

(** X28. From a consistent state, a _DELETE_ALL event that carries a
    namespace empties the map of channels: every channel that was in it
    is closed and its namespace's entry of lastEventPerNamespace is
    deleted. *)
Theorem manageResources_delete_all {V NetworkPolicy : Type}
    (ev : kubernetes.Event NetworkPolicy) (st : kubernetes.resources V)
    (ns : kubernetes.NamespaceObj) :
  kubernetes.consistent st ->
  kubernetes.EvObject ev = kubernetes.ObjNamespace ns ->
  kubernetes.EvType ev = kubernetes.InternalEventDeleteAll ->
  exists st', kubernetes.manageResources ev st = Some st' /\
    kubernetes.terminators st' = ∅ /\
    (forall uid c, kubernetes.terminators st !! uid = Some c ->
       c ∈ kubernetes.closed st' /\
       kubernetes.lastEventPerNamespace st' !! uid = None).
Proof. apply manage_delete_all. Qed.

Lemma manageResources_delete_all_witness :
  (kubernetes.consistent kubesample.managing /\
   kubernetes.EvObject (kubesample.namespaceEvent kubernetes.InternalEventDeleteAll "")
   = kubernetes.ObjNamespace {| kubernetes.UID := ""; kubernetes.NsName := "default" |} /\
   kubernetes.EvType (kubesample.namespaceEvent kubernetes.InternalEventDeleteAll "")
   = kubernetes.InternalEventDeleteAll) /\
  exists st',
    kubernetes.manageResources
      (kubesample.namespaceEvent kubernetes.InternalEventDeleteAll "") kubesample.managing
    = Some st' /\
    kubernetes.terminators st' = ∅ /\
    (forall uid c, kubernetes.terminators kubesample.managing !! uid = Some c ->
       c ∈ kubernetes.closed st' /\
       kubernetes.lastEventPerNamespace st' !! uid = None).
Proof.
  split; [exact (conj managing_consistent (conj eq_refl eq_refl))|].
  exact (manageResources_delete_all
           (kubesample.namespaceEvent kubernetes.InternalEventDeleteAll "")
           kubesample.managing _ managing_consistent eq_refl eq_refl).
Defined.
